(** * Head-detection-Deep-sort: the tracker of [deep_sort/tracker.py]

    A shallow embedding of [Tracker] (predict, update, _match,
    _initiate_track, new_id_track) with the covered ledger, the id counter
    and the per-frame cycle, followed by the properties of the
    specification that concern them.

    Conventions.  Python integers are [Z]; list positions are [nat];
    a Python list is a Rocq [list], read with [!!] and written with
    [<[i:=x]>]; an [IndexError] is [None] in the [option] monad.  The
    coordinates of a box are Python floats, that is binary64 numbers:
    they are primitive floats here, and the arithmetic of [new_id_track]
    (difference, square, sum, square root, comparison) is the binary64
    arithmetic, each operation rounded once. *)

From Stdlib Require Import ZArith QArith Lia Classical PrimFloat.
From stdpp Require Import base option list.

#[local] Open Scope Z_scope.
#[local] Set Warnings "-inexact-float".

(** ** Boxes and the covered ledger *)

(** A bounding box in the [tlwh] layout: top-left corner, width, height. *)
Record Box : Type := mkBox { box_x : float; box_y : float; box_w : float; box_h : float }.

(** An entry of [Covered_lists]: the Python list
    [[t.track_id, t.to_tlwh(), t.cover_frame]]; the fields are the
    positions 0, 1 and 2. *)
Record Cover : Type := mkCover { cover_id : Z; cover_tlwh : Box; cover_frames : Z }.

(** [track[2] += 1] *)
Definition bump (c : Cover) : Cover :=
  mkCover (cover_id c) (cover_tlwh c) (cover_frames c + 1).

(** The second loop of [Tracker.predict]:
<<
    for i, track in enumerate(self.Covered_lists):
        track[2] += 1
        if track[2] >= 140:
            self.Covered_lists.pop(i)
>>
    The list iterator keeps a position [i]; each turn reads the element
    at [i] of the list as it is at that moment and moves on to [i + 1],
    and stops when [i] is past the end.  [pop(i)] shortens the list under
    the iterator. *)
Fixpoint age_covered (fuel : nat) (i : nat) (l : list Cover) : list Cover :=
  match fuel with
  | O => l
  | S fuel' =>
      match l !! i with
      | None => l
      | Some track =>
          let l1 := <[i := bump track]> l in
          if 140 <=? cover_frames (bump track)
          then age_covered fuel' (S i) (delete i l1)
          else age_covered fuel' (S i) l1
      end
  end.

(** The loop makes at most [length l] turns. *)
Definition predict_covered (l : list Cover) : list Cover :=
  age_covered (length l) 0 l.

(** The same loop by recursion on the list: after a removal the next
    entry is stepped over. *)
Fixpoint sweep (l : list Cover) : list Cover :=
  match l with
  | [] => []
  | track :: rest =>
      if 140 <=? cover_frames track + 1
      then match rest with
           | [] => []
           | skipped :: rest' => skipped :: sweep rest'
           end
      else bump track :: sweep rest
  end.

(** [(x2 - x1) ** 2 + (y2 - y1) ** 2] on the first two components of the
    two [tlwh] boxes; the square of a float is its product with itself. *)
Definition dist2 (detection cover : Box) : float :=
  ((box_x cover - box_x detection) * (box_x cover - box_x detection)
   + (box_y cover - box_y detection) * (box_y cover - box_y detection))%float.

(** [D = sqrt (..)] *)
Definition D (detection cover : Box) : float := sqrt (dist2 detection cover).

(** [1 < D <= 60] *)
Definition near (detection cover : Box) : bool :=
  (1 <? D detection cover)%float && (D detection cover <=? 60)%float.

(** The [for] loop of [new_id_track]: the position and id of the first
    entry in the window. *)
Fixpoint find_cover (detection : Box) (i : nat) (covers : list Cover) : option (nat * Z) :=
  match covers with
  | [] => None
  | cover :: rest =>
      if near detection (cover_tlwh cover) then Some (i, cover_id cover)
      else find_cover detection (S i) rest
  end.

(** [Tracker.new_id_track]: the returned pair and the ledger afterwards. *)
Definition new_id_track (covered : list Cover) (detection : Box) : (bool * Z) * list Cover :=
  match find_cover detection 0 covered with
  | Some (i, old_id) => ((true, old_id), delete i covered)
  | None => ((false, -1), covered)
  end.





(** ** Collaborators

    [tracker.py] is the only module of the package among the sources.
    The Kalman filter, the detections, the tracks and the assignment
    routines it calls are described by the interfaces below. *)

(** [kalman_filter.KalmanFilter] with [Track.to_tlwh]: the motion state
    (mean and covariance) is kept abstract.  [kf_initiate] and
    [kf_update] receive the [tlwh] box of the detection (the source
    passes [detection.to_xyah()], a function of that box). *)
Class Kalman : Type := {
  Motion : Type;
  Feature : Type;
  kf_initiate : Box → Motion;
  kf_predict : Motion → Motion;
  kf_update : Motion → Box → Motion;
  motion_tlwh : Motion → Box
}.

(** [deep_sort.detection.Detection], as far as the tracker reads it. *)
Record Detection `{Kalman} : Type := mkDetection { tlwh : Box; feature : Feature }.

(** [TrackState] and its integer codes; [update] compares the state
    with [3]. *)
Inductive TrackState : Type := Tentative | Confirmed | Deleted.

Definition state_code (s : TrackState) : Z :=
  match s with Tentative => 1 | Confirmed => 2 | Deleted => 3 end.

#[global] Instance TrackState_eq_dec : EqDecision TrackState.
Proof. solve_decision. Defined.

(** The fields of [Track] read or written by the tracker. *)
Record Track `{Kalman} : Type := mkTrack {
  mean : Motion;
  track_id : Z;
  hits : Z;
  age : Z;
  time_since_update : Z;
  state : TrackState;
  features : list Feature;
  Covered : bool;
  cover_frame : Z;
  _n_init : Z;
  _max_age : Z
}.

Section TrackMethods.
Context `{Kalman}.

Definition to_tlwh (t : Track) : Box := motion_tlwh (mean t).

Definition is_confirmed (t : Track) : bool :=
  match state t with Confirmed => true | _ => false end.

Definition is_deleted (t : Track) : bool :=
  match state t with Deleted => true | _ => false end.

(** Modelled from the spec: the constructor of [Track] ([track.py] is
    not among the sources).  A track starts Tentative, not covered, with
    the feature of its first detection in the accumulator; its first
    detection counts as a hit, and [cover_frame], the frame count its
    ledger entry starts from, is 0. *)
Definition new_track (m : Motion) (id n_init max_age : Z) (f : Feature) : Track :=
  mkTrack _ m id 1 1 0 Tentative [f] false 0 n_init max_age.

(** Modelled from the spec: [Track.predict] advances the motion filter
    one step and increments [age] and [time_since_update]. *)
Definition track_predict (t : Track) : Track :=
  mkTrack _ (kf_predict (mean t)) (track_id t) (hits t) (age t + 1)
    (time_since_update t + 1) (state t) (features t) (Covered t)
    (cover_frame t) (_n_init t) (_max_age t).

(** Modelled from the spec: [Track.update], on a match:
    [time_since_update = 0], [hits += 1], motion-filter correction,
    feature appended; Tentative becomes Confirmed after [n_init] hits. *)
Definition track_update (t : Track) (d : Detection) : Track :=
  mkTrack _ (kf_update (mean t) (tlwh d)) (track_id t) (hits t + 1) (age t) 0
    (match state t with
     | Tentative => if _n_init t <=? hits t + 1 then Confirmed else Tentative
     | s => s
     end)
    (features t ++ [feature d]) (Covered t) (cover_frame t)
    (_n_init t) (_max_age t).

Definition set_state (t : Track) (s : TrackState) : Track :=
  mkTrack _ (mean t) (track_id t) (hits t) (age t) (time_since_update t) s
    (features t) (Covered t) (cover_frame t) (_n_init t) (_max_age t).

Definition set_Covered (t : Track) (b : bool) : Track :=
  mkTrack _ (mean t) (track_id t) (hits t) (age t) (time_since_update t)
    (state t) (features t) b (cover_frame t) (_n_init t) (_max_age t).

Definition set_features (t : Track) (fs : list Feature) : Track :=
  mkTrack _ (mean t) (track_id t) (hits t) (age t) (time_since_update t)
    (state t) fs (Covered t) (cover_frame t) (_n_init t) (_max_age t).

(** Modelled from the spec: [Track.mark_missed].  Any miss while
    Tentative deletes the track; otherwise the track is deleted once
    [time_since_update] exceeds [max_age].  [time_since_update] itself is
    incremented by [predict], which has run in this frame. *)
Definition mark_missed (t : Track) : Track :=
  match state t with
  | Tentative => set_state t Deleted
  | _ => if _max_age t <? time_since_update t then set_state t Deleted else t
  end.

(** [[t.track_id, t.to_tlwh(), t.cover_frame]] *)
Definition cover_of (t : Track) : Cover :=
  mkCover (track_id t) (to_tlwh t) (cover_frame t).
End TrackMethods.

(** [linear_assignment], [iou_matching], the appearance metric and the
    geometric test behind [Track.is_Covered]; results of the two
    assignment routines are [(matches, unmatched_tracks,
    unmatched_detections)]. *)
Class Assignment `{Kalman} : Type := {
  Metric : Type;
  cover_trigger : Track → list Box → Q → bool;
  matching_cascade :
    Metric → Z → list Track → list Detection → list nat →
    list (nat * nat) * list nat * list nat;
  min_cost_matching :
    Q → list Track → list Detection → list nat → list nat →
    list (nat * nat) * list nat * list nat;
  partial_fit : Metric → list Feature → list Z → list Z → Metric
}.

(** The attributes of [Tracker]. *)
Record Tracker `{Assignment} : Type := mkTracker {
  metric : Metric;
  max_iou_distance : Q;
  max_age : Z;
  n_init : Z;
  tracks : list Track;
  _next_id : Z;
  Covered_lists : list Cover
}.

Section TrackerMethods.
Context `{Assignment}.

(** Modelled from the spec: [Track.is_Covered(boxes, threshold)]
    evaluates the occlusion-cover test against the given boxes and, if it
    is triggered, marks the track covered.  The geometric rule itself is
    [cover_trigger]. *)
Definition is_Covered (t : Track) (boxes : list Box) (threshold : Q) : Track :=
  if cover_trigger t boxes threshold then set_Covered t true else t.

(** [Tracker.__init__] *)
Definition init (m : Metric) : Tracker :=
  mkTracker _ _ m (9 # 10) 40 11 [] 1 [].

Definition set_tracks (st : Tracker) (ts : list Track) : Tracker :=
  mkTracker _ _ (metric st) (max_iou_distance st) (max_age st) (n_init st)
    ts (_next_id st) (Covered_lists st).

Definition set_next_id (st : Tracker) (n : Z) : Tracker :=
  mkTracker _ _ (metric st) (max_iou_distance st) (max_age st) (n_init st)
    (tracks st) n (Covered_lists st).

Definition set_Covered_lists (st : Tracker) (l : list Cover) : Tracker :=
  mkTracker _ _ (metric st) (max_iou_distance st) (max_age st) (n_init st)
    (tracks st) (_next_id st) l.

Definition set_metric (st : Tracker) (m : Metric) : Tracker :=
  mkTracker _ _ m (max_iou_distance st) (max_age st) (n_init st)
    (tracks st) (_next_id st) (Covered_lists st).

(** [Tracker.predict] *)
Definition predict (st : Tracker) : Tracker :=
  set_Covered_lists (set_tracks st (track_predict <$> tracks st))
    (predict_covered (Covered_lists st)).

(** [[i for i, t in enumerate(ts) if p(t)]], counting from [i]. *)
Fixpoint indices_from (p : Track → bool) (i : nat) (ts : list Track) : list nat :=
  match ts with
  | [] => []
  | t :: rest =>
      if p t then i :: indices_from p (S i) rest else indices_from p (S i) rest
  end.

(** [[k for k in ks if p(ts[k])]] *)
Fixpoint select_by (p : Track → bool) (ts : list Track) (ks : list nat) : option (list nat) :=
  match ks with
  | [] => Some []
  | k :: rest =>
      t ← ts !! k;
      rest' ← select_by p ts rest;
      Some (if p t then k :: rest' else rest')
  end.

Definition confirmed_tracks (ts : list Track) : list nat :=
  indices_from is_confirmed 0 ts.

Definition unconfirmed_tracks (ts : list Track) : list nat :=
  indices_from (λ t, negb (is_confirmed t)) 0 ts.

(** [unconfirmed_tracks + [k for k in unmatched_tracks_a if
    self.tracks[k].time_since_update == 1]] *)
Definition iou_track_candidates (ts : list Track) (unmatched_tracks_a : list nat) : option (list nat) :=
  recent ← select_by (λ t, time_since_update t =? 1) ts unmatched_tracks_a;
  Some (unconfirmed_tracks ts ++ recent).

(** [list(set(l))]: the elements of [l] without repetition.  The order
    in which Python lists a set is not specified; the loop of [update]
    over the result does not depend on it (lemma [apply_misses_Permutation]). *)
Definition list_set (l : list nat) : list nat := remove_dups l.

(** [Tracker._match] *)
Definition _match (st : Tracker) (detections : list Detection) : option (list (nat * nat) * list nat * list nat) :=
  let '(matches_a, unmatched_tracks_a, unmatched_detections) :=
    matching_cascade (metric st) (max_age st) (tracks st) detections
      (confirmed_tracks (tracks st)) in
  candidates ← iou_track_candidates (tracks st) unmatched_tracks_a;
  unmatched_tracks_a' ←
    select_by (λ t, negb (time_since_update t =? 1)) (tracks st) unmatched_tracks_a;
  let '(matches_b, unmatched_tracks_b, unmatched_detections') :=
    min_cost_matching (max_iou_distance st) (tracks st) detections
      candidates unmatched_detections in
  Some (matches_a ++ matches_b,
        list_set (unmatched_tracks_a' ++ unmatched_tracks_b),
        unmatched_detections').

(** [Tracker._initiate_track] *)
Definition _initiate_track (st : Tracker) (detection : Detection) : Tracker :=
  let m := kf_initiate (tlwh detection) in
  let '((is_OLD, OLD_ID), covered) := new_id_track (Covered_lists st) (tlwh detection) in
  let st := set_Covered_lists st covered in
  if is_OLD
  then set_tracks st
         (tracks st ++ [new_track m OLD_ID (n_init st) (max_age st) (feature detection)])
  else set_next_id
         (set_tracks st
            (tracks st ++ [new_track m (_next_id st) (n_init st) (max_age st) (feature detection)]))
         (_next_id st + 1).

(** The loop over [matches] in [update]. *)
Fixpoint apply_matches (detections : list Detection) (matches : list (nat * nat))
    (ts : list Track) : option (list Track) :=
  match matches with
  | [] => Some ts
  | (track_idx, detection_idx) :: rest =>
      t ← ts !! track_idx;
      d ← detections !! detection_idx;
      apply_matches detections rest (<[track_idx := track_update t d]> ts)
  end.

(** One turn of the loop over [unmatched_tracks]: the track after
    [is_Covered(track_covered, 0.75)] and [mark_missed()]. *)
Definition missed (track_covered : list Box) (t : Track) : Track :=
  mark_missed (is_Covered t track_covered (3 # 4)).

(** [state == 3 and time_since_update == 1] *)
Definition dropped_at_once (t : Track) : bool :=
  (state_code (state t) =? 3) && (time_since_update t =? 1).

(** The loop over [unmatched_tracks] in [update], on the tracks and the
    id counter. *)
Fixpoint apply_misses (track_covered : list Box) (unmatched_tracks : list nat)
    (ts : list Track) (next_id : Z) : option (list Track * Z) :=
  match unmatched_tracks with
  | [] => Some (ts, next_id)
  | track_idx :: rest =>
      t ← ts !! track_idx;
      let t' := missed track_covered t in
      apply_misses track_covered rest (<[track_idx := t']> ts)
        (if dropped_at_once t' then next_id - 1 else next_id)
  end.

(** The loop over [unmatched_detections] in [update]. *)
Fixpoint initiate_tracks (detections : list Detection) (unmatched_detections : list nat)
    (st : Tracker) : option Tracker :=
  match unmatched_detections with
  | [] => Some st
  | detection_idx :: rest =>
      d ← detections !! detection_idx;
      initiate_tracks detections rest (_initiate_track st d)
  end.

(** [for t in self.tracks: if t.Covered: self.Covered_lists.append(..)] *)
Fixpoint append_covered (ts : list Track) (covered : list Cover) : list Cover :=
  match ts with
  | [] => covered
  | t :: rest =>
      append_covered rest (if Covered t then covered ++ [cover_of t] else covered)
  end.

(** [not t.is_deleted() and not t.Covered] *)
Definition kept (t : Track) : bool := negb (is_deleted t) && negb (Covered t).

(** The tracker after corrections, misses and new tracks, before covered
    and deleted tracks are taken out (lines 76 to 92 of [update]). *)
Definition update_tracks (st : Tracker) (detections : list Detection) : option Tracker :=
  '(matches, unmatched_tracks, unmatched_detections) ← _match st detections;
  let track_covered := to_tlwh <$> tracks st in
  ts ← apply_matches detections matches (tracks st);
  '(ts, next_id) ← apply_misses track_covered unmatched_tracks ts (_next_id st);
  initiate_tracks detections unmatched_detections (set_next_id (set_tracks st ts) next_id).

(** Lines 94 to 97 of [update]. *)
Definition retire (st : Tracker) : Tracker :=
  set_tracks
    (set_Covered_lists st (append_covered (tracks st) (Covered_lists st)))
    (filter (λ t, kept t = true) (tracks st)).

(** The loop that gathers the arguments of [partial_fit] (lines 102 to
    108): the tracks afterwards, [features] and [targets]. *)
Fixpoint gather (ts : list Track) (fs : list Feature) (targets : list Z)
    : list Track * list Feature * list Z :=
  match ts with
  | [] => ([], fs, targets)
  | track :: rest =>
      if negb (is_confirmed track)
      then let '(rest', fs', targets') := gather rest fs targets in
           (track :: rest', fs', targets')
      else let '(rest', fs', targets') :=
             gather rest (fs ++ features track)
               (targets ++ ((λ _, track_id track) <$> features track)) in
           (set_features track [] :: rest', fs', targets')
  end.

(** [active_targets] *)
Definition active_targets (ts : list Track) : list Z :=
  track_id <$> filter (λ t, is_confirmed t = true) ts.

(** The three arguments of [self.metric.partial_fit]. *)
Definition refit_arguments (ts : list Track) : list Feature * list Z * list Z :=
  let '(_, fs, targets) := gather ts [] [] in (fs, targets, active_targets ts).

(** Lines 100 to 110 of [update]. *)
Definition refit (st : Tracker) : Tracker :=
  let '(fs, targets, active) := refit_arguments (tracks st) in
  let '(ts, _, _) := gather (tracks st) [] [] in
  set_metric (set_tracks st ts) (partial_fit (metric st) fs targets active).

(** [Tracker.update] *)
Definition update (st : Tracker) (detections : list Detection) : option Tracker :=
  st1 ← update_tracks st detections;
  Some (refit (retire st1)).

End TrackerMethods.

(** ** Derived notions used in the statements *)

Section Notions.
Context `{Assignment}.

(** The id counter when the loop over [unmatched_tracks] of [update]
    ends (line 89), before new tracks are initiated. *)
Definition counter_after_misses (st : Tracker) (detections : list Detection) : option Z :=
  '(matches, unmatched_tracks, _) ← _match st detections;
  ts ← apply_matches detections matches (tracks st);
  '(_, next_id) ← apply_misses (to_tlwh <$> tracks st) unmatched_tracks ts (_next_id st);
  Some next_id.

(** The track at position [i] once the loop over [unmatched_tracks] has
    ended: missed if [i] is among the unmatched positions. *)
Definition miss_at (track_covered : list Box) (ks : list nat) (i : nat) (t : Track) : Track :=
  if decide (i ∈ ks) then missed track_covered t else t.

(** The number of unmatched positions whose track is Deleted with
    [time_since_update == 1] after its miss. *)
Definition drops (track_covered : list Box) (ts : list Track) (ks : list nat) : nat :=
  length (filter (λ k, dropped_at_once ∘ missed track_covered <$> ts !! k = Some true) ks).

(** One frame: [predict] then [update]; and a sequence of frames. *)
Definition frame (st : Tracker) (detections : list Detection) : option Tracker :=
  update (predict st) detections.

Fixpoint run (st : Tracker) (frames : list (list Detection)) : option Tracker :=
  match frames with
  | [] => Some st
  | detections :: rest => st' ← frame st detections; run st' rest
  end.

(** The ids in use: those of the active tracks, then those of the
    ledger. *)
Definition ids_in_use (st : Tracker) : list Z :=
  (track_id <$> tracks st) ++ (cover_id <$> Covered_lists st).

(** Ids are positive, below the counter, and pairwise distinct over the
    active tracks and the ledger together. *)
Definition ids_well_formed (st : Tracker) : Prop :=
  1 ≤ _next_id st
  ∧ (∀ id, id ∈ ids_in_use st → 1 ≤ id < _next_id st)
  ∧ NoDup (ids_in_use st).

(** The states reached from a new tracker by [predict] and by the
    [update]s that leave the id counter alone while they record the
    misses. *)
Inductive reached_quietly : Tracker → Prop :=
  | reached_init (m : Metric) : reached_quietly (init m)
  | reached_predict (st : Tracker) :
      reached_quietly st → reached_quietly (predict st)
  | reached_update (st st' : Tracker) (detections : list Detection) :
      reached_quietly st →
      update st detections = Some st' →
      counter_after_misses st detections = Some (_next_id st) →
      reached_quietly st'.

(** What the refit leaves of a track: a Confirmed track with its
    accumulator emptied, any other track as it is. *)
Definition settled (t : Track) : Track :=
  if is_confirmed t then set_features t [] else t.

(** Exactly one of three propositions holds. *)
Definition exactly_one (P Q R : Prop) : Prop :=
  (P ∧ ¬ Q ∧ ¬ R) ∨ (¬ P ∧ Q ∧ ¬ R) ∨ (¬ P ∧ ¬ Q ∧ R).

(** Modelled from the spec: the assignment routines of
    [linear_assignment] on an empty candidate set.  An empty set of
    tracks or of detections yields zero matches, all detections unmatched
    and all tracks unmatched; the cascade starts from all detections. *)
Definition nothing_to_match : Prop :=
  (∀ m a ts (ds : list Detection) (track_indices : list nat),
      ds = [] ∨ track_indices = [] →
      ∃ u, matching_cascade m a ts ds track_indices = ([], u, seq 0 (length ds))
           ∧ u ≡ₚ track_indices)
  ∧ (∀ q ts (ds : list Detection) (track_indices detection_indices : list nat),
      track_indices = [] ∨ detection_indices = [] →
      ∃ u, min_cost_matching q ts ds track_indices detection_indices
           = ([], u, detection_indices)
           ∧ u ≡ₚ track_indices).

(** Modelled from the spec: the tracks the cascade returns unmatched
    are among the confirmed tracks it was given. *)
Definition cascade_within : Prop :=
  ∀ m a ts (ds : list Detection) (track_indices : list nat) ma ua ud,
    matching_cascade m a ts ds track_indices = (ma, ua, ud) →
    ∀ k, k ∈ ua → k ∈ track_indices.

End Notions.

(** ** A small instance of the collaborators

    Used to run the tracker on concrete frames: a motion filter that
    keeps the last measured box, an appearance stage that matches nothing
    (no gallery yet), an assignment by overlap that pairs a track with
    the first free detection whose IOU cost [1 - IOU] is within the given
    bound, and a cover test that fires when a second box of the snapshot
    overlaps the track's own box by at least the threshold. *)

#[local] Instance still_kalman : Kalman := {|
  Motion := Box;
  Feature := Z;
  kf_initiate := λ b, b;
  kf_predict := λ m, m;
  kf_update := λ _ b, b;
  motion_tlwh := λ m, m
|}.

Definition area (b : Box) : float := (box_w b * box_h b)%float.

Definition fmax (x y : float) : float := if (x <? y)%float then y else x.

Definition fmin (x y : float) : float := if (x <? y)%float then x else y.

Definition intersection (a b : Box) : float :=
  (fmax 0 (fmin (box_x a + box_w a) (box_x b + box_w b) - fmax (box_x a) (box_x b))
   * fmax 0 (fmin (box_y a + box_h a) (box_y b + box_h b) - fmax (box_y a) (box_y b)))%float.

Fixpoint pos_to_float (p : positive) : float :=
  match p with
  | xH => 1%float
  | xO p => (2 * pos_to_float p)%float
  | xI p => (2 * pos_to_float p + 1)%float
  end.

Definition Z_to_float (z : Z) : float :=
  match z with
  | Z0 => 0%float
  | Zpos p => pos_to_float p
  | Zneg p => (- pos_to_float p)%float
  end.

(** [IOU a b >= r] for the ratio [r = n / d], as [n * union <= d *
    intersection]. *)
Definition iou_at_least (r : Q) (a b : Box) : bool :=
  (Z_to_float (Qnum r) * (area a + area b - intersection a b)
   <=? pos_to_float (Qden r) * intersection a b)%float.

Fixpoint first_on (bound : Q) (b : Box) (detections : list Detection)
    (detection_indices : list nat) : option nat :=
  match detection_indices with
  | [] => None
  | j :: rest =>
      match detections !! j with
      | Some d =>
          if iou_at_least (1 - bound) b (tlwh d) then Some j
          else first_on bound b detections rest
      | None => first_on bound b detections rest
      end
  end.

Fixpoint pair_on (bound : Q) (ts : list Track) (detections : list Detection)
    (track_indices detection_indices : list nat) : list (nat * nat) * list nat * list nat :=
  match track_indices with
  | [] => ([], [], detection_indices)
  | k :: rest =>
      match ts !! k ≫= λ t, first_on bound (to_tlwh t) detections detection_indices with
      | Some j =>
          let '(m, u, d) :=
            pair_on bound ts detections rest (filter (λ x, x ≠ j) detection_indices) in
          ((k, j) :: m, u, d)
      | None =>
          let '(m, u, d) := pair_on bound ts detections rest detection_indices in
          (m, k :: u, d)
      end
  end.

#[local] Instance by_overlap : Assignment := {|
  Metric := list (Z * Z);
  cover_trigger := λ t boxes threshold,
    bool_decide (2 ≤ length (filter (λ b, iou_at_least threshold (to_tlwh t) b = true) boxes))%nat;
  matching_cascade := λ _ _ _ detections track_indices,
    ([], track_indices, seq 0 (length detections));
  min_cost_matching := λ bound ts detections track_indices detection_indices,
    pair_on bound ts detections track_indices detection_indices;
  partial_fit := λ m fs targets active,
    filter (λ p, p.1 ∈ active) (m ++ zip targets fs)
|}.

(** A tracker over the small instance, with the given tracks, counter
    and ledger. *)
Definition tracker_with (ts : list Track) (next_id : Z) (covered : list Cover) : Tracker :=
  mkTracker _ _ ([] : list (Z * Z)) (9 # 10) 40 11 ts next_id covered.

(** A new tracker over the small instance, with an empty gallery. *)
Definition new_tracker : Tracker := init ([] : list (Z * Z)).

(** A track of the small instance resting on box [b]. *)
Definition track_at (id : Z) (s : TrackState) (since : Z) (b : Box) : Track :=
  mkTrack _ b id 1 1 since s [] false 0 11 40.

(** ** Notions for the further properties *)

(** A ledger entry [n] frames older. *)
Definition aged (n : Z) (c : Cover) : Cover :=
  mkCover (cover_id c) (cover_tlwh c) (cover_frames c + n).

(** What identifies a ledger entry: its id and its box. *)
Definition cover_key (c : Cover) : Z * Box := (cover_id c, cover_tlwh c).

Section FurtherNotions.
Context `{Assignment}.

(** Modelled from the spec: the result of an assignment routine is
    "matches, still-unmatched tracks, still-unmatched detections": every
    track index it was given is matched once or returned unmatched, and so
    is every detection index (the cascade starts from all detections). *)
Definition assignment_partitions : Prop :=
  (∀ m a ts (ds : list Detection) (track_indices : list nat) ma ua ud,
      matching_cascade m a ts ds track_indices = (ma, ua, ud) →
      ma.*1 ++ ua ≡ₚ track_indices ∧ ma.*2 ++ ud ≡ₚ seq 0 (length ds))
  ∧ (∀ q ts (ds : list Detection) (track_indices detection_indices : list nat) mb ub ud,
      NoDup detection_indices →
      min_cost_matching q ts ds track_indices detection_indices = (mb, ub, ud) →
      mb.*1 ++ ub ≡ₚ track_indices ∧ mb.*2 ++ ud ≡ₚ detection_indices).

(** The indices returned by [_match] are positions of the two lists. *)
Definition in_range (st : Tracker) (detections : list Detection)
    (r : list (nat * nat) * list nat * list nat) : Prop :=
  (∀ k j, (k, j) ∈ r.1.1 →
          (k < length (tracks st))%nat ∧ (j < length detections)%nat)
  ∧ (∀ k, k ∈ r.1.2 → (k < length (tracks st))%nat)
  ∧ (∀ j, j ∈ r.2 → (j < length detections)%nat).

End FurtherNotions.

(** * Properties *)

(** ** The covered ledger under [predict] *)

Lemma age_covered_past_end fuel i (l : list Cover) :
  (length l ≤ i)%nat → age_covered fuel i l = l.
Proof.
  intros Hi. destruct fuel as [|fuel]; [done|]. simpl.
  by rewrite (lookup_ge_None_2 l i Hi).
Qed.

(** The loop on a list split at the iterator's position. *)
Lemma age_covered_sweep fuel (pre l : list Cover) :
  (length l ≤ fuel)%nat →
  age_covered fuel (length pre) (pre ++ l) = pre ++ sweep l.
Proof.
  revert pre l. induction fuel as [|fuel IH]; intros pre l Hfuel.
  - destruct l; [done | simpl in Hfuel; lia].
  - destruct l as [|track rest].
    + simpl. rewrite lookup_ge_None_2; [done | by rewrite app_nil_r].
    + cbn [age_covered sweep].
      rewrite list_lookup_middle by done.
      rewrite insert_app_r_alt, Nat.sub_diag by lia. cbn [insert list_insert].
      change (cover_frames (bump track)) with (cover_frames track + 1).
      destruct (140 <=? cover_frames track + 1).
      * replace (delete (length pre) (pre ++ bump track :: rest)) with (pre ++ rest).
        2:{ rewrite delete_middle. done. }
        destruct rest as [|skipped rest'].
        { rewrite age_covered_past_end; [done|]. rewrite app_nil_r. lia. }
        replace (S (length pre)) with (length (pre ++ [skipped]))
          by (rewrite length_app; simpl; lia).
        rewrite (cons_middle skipped pre rest'), app_assoc.
        rewrite IH by (simpl in Hfuel; lia).
        by rewrite <- app_assoc.
      * replace (S (length pre)) with (length (pre ++ [bump track]))
          by (rewrite length_app; simpl; lia).
        rewrite (cons_middle (bump track) pre rest), app_assoc.
        rewrite IH by (simpl in Hfuel; lia).
        by rewrite <- app_assoc.
Qed.

(** [predict] on the ledger is [sweep]; any fuel from [length l] on gives
    the same list. *)
Lemma predict_covered_sweep (l : list Cover) : predict_covered l = sweep l.
Proof. exact (age_covered_sweep (length l) [] l (Nat.le_refl _)). Qed.

Lemma age_covered_enough fuel (l : list Cover) :
  (length l ≤ fuel)%nat → age_covered fuel 0 l = predict_covered l.
Proof.
  intros Hf. rewrite predict_covered_sweep. exact (age_covered_sweep fuel [] l Hf).
Qed.

Lemma sweep_young (l : list Cover) :
  (∀ e, e ∈ l → cover_frames e + 1 < 140) → sweep l = bump <$> l.
Proof.
  induction l as [|e l IH]; intros Hl; [done|]. simpl.
  assert (He : cover_frames e + 1 < 140) by (apply Hl; left).
  destruct (Z.leb_spec 140 (cover_frames e + 1)); [lia|].
  f_equal. apply IH. intros e' He'. apply Hl. by right.
Qed.



(** Turns of the loop at positions from [i] on leave the positions
    below [i] alone. *)
Lemma age_covered_before fuel i k (l : list Cover) :
  (k < i)%nat → age_covered fuel i l !! k = l !! k.
Proof.
  revert i l. induction fuel as [|fuel IH]; intros i l Hk; [done|].
  cbn [age_covered].
  destruct (l !! i) as [track|] eqn:Hi; [|done]. cbv zeta.
  destruct (140 <=? cover_frames (bump track)).
  - rewrite IH by lia. rewrite list_lookup_delete_lt by lia.
    rewrite list_lookup_insert_ne by lia. done.
  - rewrite IH by lia. rewrite list_lookup_insert_ne by lia. done.
Qed.

Lemma sweep_origin n (l : list Cover) (e' : Cover) :
  (length l ≤ n)%nat → e' ∈ sweep l →
  ∃ e, e ∈ l ∧ (e' = e ∨ (e' = bump e ∧ cover_frames e + 1 < 140)).
Proof.
  revert l. induction n as [|n IH]; intros l Hn He'.
  { destruct l; [by apply elem_of_nil in He' | simpl in Hn; lia]. }
  destruct l as [|e rest]; [by apply elem_of_nil in He'|]. simpl in Hn, He'.
  destruct (Z.leb_spec 140 (cover_frames e + 1)).
  - destruct rest as [|skipped rest']; [by apply elem_of_nil in He'|].
    apply elem_of_cons in He' as [->|He'].
    + exists skipped. split; [right; left | by left].
    + destruct (IH rest' ltac:(simpl in Hn; lia) He') as (x & Hx & Hor).
      exists x. split; [by do 2 right | done].
  - apply elem_of_cons in He' as [->|He'].
    + exists e. split; [left | right; done].
    + destruct (IH rest ltac:(lia) He') as (x & Hx & Hor).
      exists x. split; [by right | done].
Qed.

Lemma sweep_keys_sublist n (l : list Cover) :
  (length l ≤ n)%nat →
  cover_key <$> sweep l `sublist_of` cover_key <$> l.
Proof.
  revert l. induction n as [|n IH]; intros l Hn.
  { destruct l; [done | simpl in Hn; lia]. }
  destruct l as [|e rest]; [done|]. simpl in *.
  destruct (140 <=? cover_frames e + 1).
  - destruct rest as [|skipped rest']; [apply sublist_nil_l|].
    rewrite !fmap_cons. apply sublist_cons, sublist_skip, IH. simpl in Hn. lia.
  - rewrite !fmap_cons. apply sublist_skip, IH. lia.
Qed.





(** The first part of C2 fails too: the entry behind a removed one keeps
    its counter. *)
Example predict_covered_leaves_one_unaged :
  let b := mkBox 10 10 20 40 in
  predict_covered [mkCover 1 b 139; mkCover 2 b 5] = [mkCover 2 b 5].
Proof. reflexivity. Qed.

(** C10.  When the turn at position [i] removes the entry there, the
    entry that was at [i + 1] is at position [i] when the loop ends, as it
    was: no later turn reads position [i] again.  And of two consecutive
    entries that both reach the bound, one call removes only the first. *)
Theorem predict_covered_skips_next :
  (∀ fuel i (l : list Cover) (track next : Cover),
      l !! i = Some track →
      140 ≤ cover_frames track + 1 →
      l !! S i = Some next →
      age_covered (S fuel) i l !! i = Some next)
  ∧ (∀ id1 id2 b1 b2,
      predict_covered [mkCover id1 b1 139; mkCover id2 b2 139] = [mkCover id2 b2 139]).
Proof.
  split.
  - intros fuel i l track next Hi Hold Hnext. cbn [age_covered]. rewrite Hi.
    change (cover_frames (bump track)) with (cover_frames track + 1).
    cbv zeta. destruct (Z.leb_spec 140 (cover_frames track + 1)); [|lia].
    rewrite age_covered_before by lia.
    rewrite list_lookup_delete_ge by lia.
    rewrite list_lookup_insert_ne by lia. done.
  - reflexivity.
Qed.

Lemma predict_covered_skips_next_witness :
  let b := mkBox 10 10 20 40 in
  age_covered 3 1 [mkCover 1 b 0; mkCover 2 b 139; mkCover 3 b 200] !! 1%nat
  = Some (mkCover 3 b 200).
Proof.
  intros b.
  apply (proj1 predict_covered_skips_next 2%nat 1%nat _ (mkCover 2 b 139) (mkCover 3 b 200));
    [reflexivity | simpl; lia | reflexivity].
Defined.

(** ** Identity reuse: [new_id_track] and [_initiate_track] *)



Lemma find_cover_inv (d : Box) (i n : nat) (id : Z) (l : list Cover) :
  find_cover d i l = Some (n, id) →
  ∃ k c, n = (i + k)%nat ∧ l !! k = Some c ∧ id = cover_id c
         ∧ near d (cover_tlwh c) = true
         ∧ ∀ j c', (j < k)%nat → l !! j = Some c' → near d (cover_tlwh c') = false.
Proof.
  revert i. induction l as [|x l IH]; intros i Hf; [done|]. simpl in Hf.
  destruct (near d (cover_tlwh x)) eqn:Hx.
  - injection Hf as <- <-. exists 0%nat, x. repeat split; [lia | done |].
    intros j c' Hj. lia.
  - destruct (IH _ Hf) as (k & c & -> & Hk & -> & Hnear & Hbefore).
    exists (S k), c. repeat split; [lia | done | done |].
    intros [|j] c' Hj Hc'; simpl in Hc'.
    + by injection Hc' as <-.
    + apply (Hbefore j); [lia | done].
Qed.

Section Initiate.
Context `{Assignment}.

Lemma initiate_tracks_fold (detections : list Detection) (ks : list nat) (st : Tracker) :
  initiate_tracks detections ks st
  = (ds ← mapM (λ k, detections !! k) ks; Some (foldl _initiate_track st ds)).
Proof.
  revert st. induction ks as [|k ks IH]; intros st; [done|]. simpl.
  destruct (detections !! k) as [d|]; [|done]. simpl. rewrite IH.
  by destruct (mapM _ ks).
Qed.


End Initiate.



(** ** The two-stage match *)

Section Match.
Context `{Assignment}.

Lemma elem_of_indices_from (p : Track → bool) (i k : nat) (ts : list Track) :
  k ∈ indices_from p i ts
  ↔ ∃ t, (i ≤ k)%nat ∧ ts !! (k - i)%nat = Some t ∧ p t = true.
Proof.
  revert i. induction ts as [|x ts IH]; intros i; simpl.
  - split; [by intros ?%elem_of_nil | by intros (t & _ & ? & _)].
  - assert (Hrest : k ∈ indices_from p (S i) ts
                    ↔ ∃ t, (i < k)%nat ∧ (x :: ts) !! (k - i)%nat = Some t ∧ p t = true).
    { rewrite IH. split; intros (t & Hik & Ht & Hp); exists t; (split; [lia|]);
        (split; [|done]).
      - by replace (k - i)%nat with (S (k - S i)) by lia.
      - by replace (k - i)%nat with (S (k - S i)) in Ht by lia. }
    destruct (p x) eqn:Hx.
    + rewrite elem_of_cons, Hrest. split.
      * intros [->|(t & Hik & Ht & Hp)].
        -- exists x. rewrite Nat.sub_diag. done.
        -- exists t. split; [lia | done].
      * intros (t & Hik & Ht & Hp).
        destruct (decide (k = i)) as [->|Hne]; [by left | right].
        exists t. split; [lia | done].
    + rewrite Hrest. split.
      * intros (t & Hik & Ht & Hp). exists t. split; [lia | done].
      * intros (t & Hik & Ht & Hp).
        destruct (decide (k = i)) as [->|Hne].
        -- rewrite Nat.sub_diag in Ht. simpl in Ht. congruence.
        -- exists t. split; [lia | done].
Qed.

Lemma NoDup_indices_from (p : Track → bool) (i : nat) (ts : list Track) :
  NoDup (indices_from p i ts).
Proof.
  revert i. induction ts as [|x ts IH]; intros i; simpl; [constructor|].
  destruct (p x); [|done]. constructor; [|done].
  rewrite elem_of_indices_from. intros (t & Hlt & _). lia.
Qed.

Lemma elem_of_confirmed_tracks (ts : list Track) (k : nat) :
  k ∈ confirmed_tracks ts ↔ ∃ t, ts !! k = Some t ∧ is_confirmed t = true.
Proof.
  unfold confirmed_tracks. rewrite elem_of_indices_from, Nat.sub_0_r.
  split; intros (t & Ht); exists t; [tauto | split; [lia | tauto]].
Qed.

Lemma elem_of_unconfirmed_tracks (ts : list Track) (k : nat) :
  k ∈ unconfirmed_tracks ts ↔ ∃ t, ts !! k = Some t ∧ is_confirmed t = false.
Proof.
  unfold unconfirmed_tracks. rewrite elem_of_indices_from, Nat.sub_0_r.
  split; intros (t & Ht); exists t; rewrite ?negb_true_iff in *;
    [tauto | split; [lia | tauto]].
Qed.

(** The comprehension over indices succeeds when every index is in
    range, and then selects by the track at each index. *)
Lemma select_by_Some (p : Track → bool) (ts : list Track) (ks : list nat) :
  (∀ k, k ∈ ks → is_Some (ts !! k)) →
  select_by p ts ks = Some (filter (λ k, p <$> ts !! k = Some true) ks).
Proof.
  induction ks as [|k ks IH]; intros Hks; [done|]. simpl.
  destruct (Hks k) as [t Ht]; [left|]. rewrite Ht. simpl.
  rewrite IH by (intros k' Hk'; apply Hks; by right). simpl.
  rewrite filter_cons. rewrite Ht. simpl.
  destruct (p t); case_decide; congruence.
Qed.

Lemma select_by_inv (p : Track → bool) (ts : list Track) (ks r : list nat) :
  select_by p ts ks = Some r →
  (∀ k, k ∈ ks → is_Some (ts !! k))
  ∧ r = filter (λ k, p <$> ts !! k = Some true) ks.
Proof.
  intros Hr.
  assert (Hks : ∀ k, k ∈ ks → is_Some (ts !! k)).
  { revert r Hr. induction ks as [|k ks IH]; intros r Hr k' Hk'.
    - by apply elem_of_nil in Hk'.
    - simpl in Hr. destruct (ts !! k) as [t|] eqn:Ht; [|done]. simpl in Hr.
      destruct (select_by p ts ks) as [r'|] eqn:Hr'; [|done].
      apply elem_of_cons in Hk' as [->|Hk']; [by rewrite Ht | by eapply IH]. }
  split; [done|]. rewrite (select_by_Some p ts ks Hks) in Hr. congruence.
Qed.

Lemma elem_of_select (p : Track → bool) (ts : list Track) (ks : list nat) (k : nat) :
  k ∈ filter (λ k, p <$> ts !! k = Some true) ks
  ↔ k ∈ ks ∧ ∃ t, ts !! k = Some t ∧ p t = true.
Proof.
  rewrite list_elem_of_filter. split.
  - intros [Hp Hk]. split; [done|]. destruct (ts !! k) as [t|]; [|done].
    exists t. split; [done|]. simpl in Hp. congruence.
  - intros [Hk (t & Ht & Hp)]. split; [|done]. by rewrite Ht, <- Hp.
Qed.

(** C6.  The cascade runs over the confirmed tracks and what it returns
    unmatched is among them.  The track indices handed to the IOU stage
    are exactly the unconfirmed tracks together with the
    cascade-unmatched (confirmed) tracks whose [time_since_update] is 1;
    a cascade-unmatched track with another [time_since_update] is not
    handed to the IOU stage and is in the unmatched tracks that [_match]
    returns. *)
Theorem match_iou_candidates (st : Tracker) (detections : list Detection)
    (matches_a : list (nat * nat)) (unmatched_tracks_a unmatched_detections : list nat) :
  cascade_within →
  matching_cascade (metric st) (max_age st) (tracks st) detections
    (confirmed_tracks (tracks st))
  = (matches_a, unmatched_tracks_a, unmatched_detections) →
  ∃ candidates matches_b unmatched_tracks unmatched_tracks_b unmatched_detections',
    iou_track_candidates (tracks st) unmatched_tracks_a = Some candidates
    ∧ min_cost_matching (max_iou_distance st) (tracks st) detections
        candidates unmatched_detections
      = (matches_b, unmatched_tracks_b, unmatched_detections')
    ∧ _match st detections
      = Some (matches_a ++ matches_b, unmatched_tracks, unmatched_detections')
    ∧ (∀ k, k ∈ candidates
            ↔ ∃ t, tracks st !! k = Some t
                   ∧ (is_confirmed t = false
                      ∨ (k ∈ unmatched_tracks_a ∧ is_confirmed t = true
                         ∧ time_since_update t = 1)))
    ∧ (∀ k t, k ∈ unmatched_tracks_a → tracks st !! k = Some t →
              time_since_update t ≠ 1 →
              (k ∉ candidates) ∧ k ∈ unmatched_tracks)
    ∧ (∀ k, k ∈ unmatched_tracks_b → k ∈ unmatched_tracks).
Proof.
  intros Hwithin Hcascade.
  assert (Hua : ∀ k, k ∈ unmatched_tracks_a →
                     ∃ t, tracks st !! k = Some t ∧ is_confirmed t = true).
  { intros k Hk. apply elem_of_confirmed_tracks. by eapply Hwithin. }
  assert (Hvalid : ∀ k, k ∈ unmatched_tracks_a → is_Some (tracks st !! k)).
  { intros k Hk. destruct (Hua k Hk) as (t & -> & _). done. }
  set (recent := filter (λ k, (λ t, time_since_update t =? 1) <$> tracks st !! k = Some true)
                   unmatched_tracks_a).
  set (older := filter (λ k, (λ t, negb (time_since_update t =? 1)) <$> tracks st !! k
                             = Some true) unmatched_tracks_a).
  set (candidates := unconfirmed_tracks (tracks st) ++ recent).
  destruct (min_cost_matching (max_iou_distance st) (tracks st) detections
              candidates unmatched_detections)
    as [[matches_b unmatched_tracks_b] unmatched_detections'] eqn:Hiou.
  exists candidates, matches_b, (list_set (older ++ unmatched_tracks_b)),
    unmatched_tracks_b, unmatched_detections'.
  assert (Hcand : iou_track_candidates (tracks st) unmatched_tracks_a = Some candidates).
  { unfold iou_track_candidates. by rewrite (select_by_Some _ _ _ Hvalid). }
  split; [done|]. split; [done|]. split; [|split; [|split]].
  - unfold _match. rewrite Hcascade, Hcand. simpl.
    rewrite (select_by_Some _ _ _ Hvalid). simpl. fold older candidates.
    by rewrite Hiou.
  - intros k. unfold candidates. rewrite elem_of_app, elem_of_unconfirmed_tracks.
    unfold recent. rewrite elem_of_select. split.
    + intros [(t & Ht & Hc)|[Hk (t & Ht & Htsu)]].
      * exists t. split; [done | by left].
      * exists t. split; [done | right]. split; [done|].
        destruct (Hua k Hk) as (t' & Ht' & Hc). rewrite Ht in Ht'. injection Ht' as <-.
        split; [done | by apply Z.eqb_eq].
    + intros (t & Ht & [Hc|(Hk & Hc & Htsu)]).
      * left. by exists t.
      * right. split; [done|]. exists t. split; [done | by apply Z.eqb_eq].
  - intros k t Hk Ht Htsu. split.
    + unfold candidates. rewrite elem_of_app, elem_of_unconfirmed_tracks.
      unfold recent. rewrite elem_of_select.
      intros [(t' & Ht' & Hc)|[_ (t' & Ht' & Hone)]]; rewrite Ht in Ht'; injection Ht' as <-.
      * destruct (Hua k Hk) as (t' & Ht' & Hc'). rewrite Ht in Ht'. injection Ht' as <-.
        congruence.
      * by apply Z.eqb_eq in Hone.
    + unfold list_set. rewrite elem_of_remove_dups, elem_of_app. left.
      unfold older. rewrite elem_of_select. split; [done|]. exists t. split; [done|].
      apply negb_true_iff. by apply Z.eqb_neq.
  - intros k Hk. unfold list_set. rewrite elem_of_remove_dups, elem_of_app. by right.
Qed.

End Match.

Lemma by_overlap_cascade_within : cascade_within.
Proof.
  intros m a ts ds track_indices ma ua ud Hc k Hk. simpl in Hc.
  injection Hc as _ <- _. done.
Qed.

Lemma match_iou_candidates_witness :
  let b := mkBox 10 10 20 40 in
  let st := tracker_with
              [track_at 1 Confirmed 1 b; track_at 2 Confirmed 3 b; track_at 3 Tentative 1 b]
              4 [] in
  ∃ candidates unmatched_tracks,
    iou_track_candidates (tracks st) [0; 1]%nat = Some candidates
    ∧ _match st [] = Some ([], unmatched_tracks, [])
    ∧ 0%nat ∈ candidates ∧ 2%nat ∈ candidates
    ∧ (1%nat ∉ candidates) ∧ 1%nat ∈ unmatched_tracks.
Proof.
  intros b st.
  destruct (match_iou_candidates st [] [] [0; 1]%nat [] by_overlap_cascade_within eq_refl)
    as (candidates & mb & u & ub & ud' & Hcand & Hiou & Hmatch & Hin & Hout & _).
  exists candidates, u.
  assert (Hmb : mb = [] ∧ ud' = []).
  { change (_match st []) with (Some ([] : list (nat * nat), [1; 2; 0]%nat, [] : list nat))
      in Hmatch.
    injection Hmatch as <- _ <-. done. }
  destruct Hmb as [-> ->].
  split; [done|]. split; [done|].
  destruct (Hout 1%nat (track_at 2 Confirmed 3 b)) as [Hnot Hun];
    [right; left | reflexivity | simpl; lia |].
  repeat split; [| |done|done].
  - apply Hin. exists (track_at 1 Confirmed 1 b). split; [reflexivity | right].
    split; [left | done].
  - apply Hin. exists (track_at 3 Tentative 1 b). split; [reflexivity | by left].
Defined.

(** ** The loops of [update] *)

Section Update.
Context `{Assignment}.

Lemma apply_matches_length (ds : list Detection) ms (ts ts' : list Track) :
  apply_matches ds ms ts = Some ts' → length ts' = length ts.
Proof.
  revert ts. induction ms as [|[k j] ms IH]; intros ts Hm; simpl in Hm.
  - by injection Hm as <-.
  - destruct (ts !! k) as [t|]; [|done]. simpl in Hm.
    destruct (ds !! j) as [d|]; [|done]. simpl in Hm.
    rewrite (IH _ Hm). apply length_insert.
Qed.

Lemma track_id_track_update (t : Track) (d : Detection) :
  track_id (track_update t d) = track_id t.
Proof. done. Qed.

Lemma track_id_missed boxes (t : Track) : track_id (missed boxes t) = track_id t.
Proof.
  unfold missed, mark_missed, is_Covered.
  destruct (cover_trigger t boxes (3 # 4)); simpl;
    destruct (state t); simpl; try done;
    destruct (_max_age t <? time_since_update t); done.
Qed.

Lemma fmap_insert_same {A B} (f : A → B) (l : list A) (k : nat) (x y : A) :
  l !! k = Some x → f y = f x → f <$> <[k := y]> l = f <$> l.
Proof.
  intros Hk Hf. rewrite list_fmap_insert, Hf. apply list_insert_id.
  by rewrite list_lookup_fmap, Hk.
Qed.

Lemma apply_matches_ids (ds : list Detection) ms (ts ts' : list Track) :
  apply_matches ds ms ts = Some ts' → track_id <$> ts' = track_id <$> ts.
Proof.
  revert ts. induction ms as [|[k j] ms IH]; intros ts Hm; simpl in Hm.
  - by injection Hm as <-.
  - destruct (ts !! k) as [t|] eqn:Hk; [|done]. simpl in Hm.
    destruct (ds !! j) as [d|]; [|done]. simpl in Hm.
    rewrite (IH _ Hm). by apply (fmap_insert_same _ _ _ t).
Qed.

(** A track that is in no match is not corrected. *)
Lemma apply_matches_other (ds : list Detection) ms (ts ts' : list Track) (k : nat) :
  apply_matches ds ms ts = Some ts' → k ∉ ms.*1 → ts' !! k = ts !! k.
Proof.
  revert ts. induction ms as [|[i j] ms IH]; intros ts Hm Hk; simpl in Hm.
  - by injection Hm as <-.
  - destruct (ts !! i) as [t|]; [|done]. simpl in Hm.
    destruct (ds !! j) as [d|]; [|done]. simpl in Hm.
    rewrite fmap_cons, not_elem_of_cons in Hk. destruct Hk as [Hne Hk].
    rewrite (IH _ Hm Hk). apply list_lookup_insert_ne. simpl in Hne. congruence.
Qed.

Lemma apply_misses_in_range boxes ks (ts : list Track) nid r :
  apply_misses boxes ks ts nid = Some r → ∀ k, k ∈ ks → is_Some (ts !! k).
Proof.
  revert ts nid. induction ks as [|k ks IH]; intros ts nid Hr k' Hk'.
  - by apply elem_of_nil in Hk'.
  - simpl in Hr. destruct (ts !! k) as [t|] eqn:Ht; [|done]. simpl in Hr.
    apply elem_of_cons in Hk' as [->|Hk']; [by rewrite Ht|].
    destruct (IH _ _ Hr k' Hk') as [x Hx].
    apply lookup_lt_is_Some. apply lookup_lt_Some in Hx.
    by rewrite length_insert in Hx.
Qed.

Lemma drops_cons boxes (ts : list Track) (k : nat) (ks : list nat) (t : Track) :
  ts !! k = Some t →
  drops boxes ts (k :: ks)
  = ((if dropped_at_once (missed boxes t) then 1 else 0) + drops boxes ts ks)%nat.
Proof.
  intros Ht. unfold drops. rewrite filter_cons, Ht. simpl.
  destruct (dropped_at_once (missed boxes t)); case_decide; simpl; congruence.
Qed.

Lemma drops_insert_other boxes (ts : list Track) (k : nat) (ks : list nat) (t : Track) :
  k ∉ ks → drops boxes (<[k := t]> ts) ks = drops boxes ts ks.
Proof.
  intros Hk. unfold drops. induction ks as [|k' ks IH]; [done|].
  apply not_elem_of_cons in Hk as [Hne Hk].
  rewrite !filter_cons, list_lookup_insert_ne by done.
  case_decide; simpl; rewrite IH; done.
Qed.

(** The loop over the unmatched tracks, position by position: every
    listed track is missed once, the others are left alone, and the
    counter goes down by the number of tracks dropped at once. *)
Lemma apply_misses_spec boxes (ks : list nat) (ts : list Track) (nid : Z) :
  NoDup ks → (∀ k, k ∈ ks → is_Some (ts !! k)) →
  apply_misses boxes ks ts nid
  = Some (imap (miss_at boxes ks) ts, nid - Z.of_nat (drops boxes ts ks)).
Proof.
  revert ts nid. induction ks as [|k ks IH]; intros ts nid Hnd Hks.
  - simpl. f_equal. f_equal; [|unfold drops; simpl; lia].
    apply list_eq. intros i. rewrite list_lookup_imap.
    unfold miss_at. destruct (ts !! i); simpl; done.
  - apply NoDup_cons in Hnd as [Hk Hnd].
    destruct (Hks k) as [t Ht]; [left|].
    simpl. rewrite Ht. simpl. rewrite IH; [|done|].
    2:{ intros k' Hk'. destruct (Hks k') as [x Hx]; [by right|].
        apply lookup_lt_is_Some. rewrite length_insert. by eapply lookup_lt_Some. }
    f_equal. f_equal.
    + apply list_eq. intros i. rewrite !list_lookup_imap. unfold miss_at.
      destruct (decide (i = k)) as [->|Hne].
      * rewrite list_lookup_insert_eq by (by eapply lookup_lt_Some). rewrite Ht. simpl.
        rewrite decide_False by done. rewrite decide_True by left. done.
      * rewrite list_lookup_insert_ne by done. destruct (ts !! i); simpl; [|done].
        f_equal. destruct (decide (i ∈ ks)) as [Hi|Hi].
        -- rewrite decide_True by (by right). done.
        -- rewrite decide_False; [done|]. rewrite not_elem_of_cons. done.
    + rewrite drops_insert_other by done. rewrite (drops_cons _ _ _ _ _ Ht).
      destruct (dropped_at_once (missed boxes t)); lia.
Qed.

(** The order in which the unmatched tracks are listed does not matter
    to the loop. *)
Lemma apply_misses_Permutation boxes (ks ks' : list nat) (ts : list Track) (nid : Z) :
  NoDup ks → ks ≡ₚ ks' → (∀ k, k ∈ ks → is_Some (ts !! k)) →
  apply_misses boxes ks ts nid = apply_misses boxes ks' ts nid.
Proof.
  intros Hnd Hperm Hks.
  rewrite (apply_misses_spec boxes ks) by done.
  rewrite (apply_misses_spec boxes ks').
  - f_equal. f_equal.
    + apply imap_ext. intros i t _. unfold miss_at.
      destruct (decide (i ∈ ks)) as [Hi|Hi].
      * rewrite decide_True; [done | by rewrite <- Hperm].
      * rewrite decide_False; [done | by rewrite <- Hperm].
    + unfold drops. by rewrite Hperm.
  - by rewrite <- Hperm.
  - intros k Hk. apply Hks. by rewrite Hperm.
Qed.

Lemma NoDup_list_set (l : list nat) : NoDup (list_set l).
Proof. apply NoDup_remove_dups. Qed.

(** What [_match] returns as unmatched tracks has no repetition. *)
Lemma match_unmatched_NoDup (st : Tracker) (ds : list Detection) m u ud :
  _match st ds = Some (m, u, ud) → NoDup u.
Proof.
  unfold _match. destruct (matching_cascade _ _ _ _ _) as [[ma ua] ud0].
  destruct (iou_track_candidates _ _) as [c|]; [|done]. simpl.
  destruct (select_by _ _ _) as [ua'|]; [|done]. simpl.
  destruct (min_cost_matching _ _ _ _ _) as [[mb ub] ud1].
  intros [= <- <- <-]. apply NoDup_list_set.
Qed.

(** [update_tracks], step by step. *)
Lemma update_tracks_inv (st st' : Tracker) (ds : list Detection) :
  update_tracks st ds = Some st' →
  ∃ m u ud ts1 ts2 nid,
    _match st ds = Some (m, u, ud)
    ∧ apply_matches ds m (tracks st) = Some ts1
    ∧ apply_misses (to_tlwh <$> tracks st) u ts1 (_next_id st) = Some (ts2, nid)
    ∧ initiate_tracks ds ud (set_next_id (set_tracks st ts2) nid) = Some st'.
Proof.
  unfold update_tracks. intros Hu.
  destruct (_match st ds) as [[[m u] ud]|]; [|done]. simpl in Hu.
  destruct (apply_matches ds m (tracks st)) as [ts1|] eqn:H1; [|done]. simpl in Hu.
  destruct (apply_misses _ u ts1 (_next_id st)) as [[ts2 nid]|] eqn:H2; [|done].
  simpl in Hu. exists m, u, ud, ts1, ts2, nid. by rewrite H1.
Qed.

Lemma counter_after_misses_inv (st : Tracker) (ds : list Detection) (n : Z) :
  counter_after_misses st ds = Some n →
  ∃ m u ud ts1 ts2,
    _match st ds = Some (m, u, ud)
    ∧ apply_matches ds m (tracks st) = Some ts1
    ∧ apply_misses (to_tlwh <$> tracks st) u ts1 (_next_id st) = Some (ts2, n).
Proof.
  unfold counter_after_misses. intros Hu.
  destruct (_match st ds) as [[[m u] ud]|]; [|done]. simpl in Hu.
  destruct (apply_matches ds m (tracks st)) as [ts1|] eqn:H1; [|done]. simpl in Hu.
  destruct (apply_misses _ u ts1 (_next_id st)) as [[ts2 nid]|] eqn:H2; [|done].
  simpl in Hu. injection Hu as <-. exists m, u, ud, ts1, ts2. by rewrite H1.
Qed.

(** New tracks are appended: the tracks already there keep their places. *)
Lemma initiate_track_tracks (st : Tracker) (d : Detection) :
  ∃ t, tracks (_initiate_track st d) = tracks st ++ [t]
       ∧ n_init (_initiate_track st d) = n_init st
       ∧ max_age (_initiate_track st d) = max_age st
       ∧ t = new_track (kf_initiate (tlwh d)) (track_id t) (n_init st) (max_age st)
               (feature d).
Proof.
  unfold _initiate_track. destruct (new_id_track _ _) as [[[] id] l]; simpl; eauto.
Qed.

Lemma initiate_tracks_prefix (ds : list Detection) (ks : list nat) (st st' : Tracker) :
  initiate_tracks ds ks st = Some st' →
  ∃ new, tracks st' = tracks st ++ new ∧ length new = length ks.
Proof.
  revert st. induction ks as [|k ks IH]; intros st Hi; simpl in Hi.
  - injection Hi as <-. exists []. by rewrite app_nil_r.
  - destruct (ds !! k) as [d|]; [|done]. simpl in Hi.
    destruct (IH _ Hi) as (new & Hnew & Hlen).
    destruct (initiate_track_tracks st d) as (t & Ht & _).
    exists (t :: new). rewrite Hnew, Ht, <- app_assoc. split; [done | simpl; lia].
Qed.

End Update.

(** ** Misses: the id counter and the cover test *)

Section Misses.
Context `{Assignment}.



(** C9.  For every unmatched track, [update] first evaluates the cover
    test at the threshold 0.75 against the boxes of all the tracks as they
    were when [update] was entered, before any matched track was
    corrected, and then records the miss. *)
Theorem update_cover_test_before_miss (st st' : Tracker) (detections : list Detection)
    (matches : list (nat * nat)) (unmatched_tracks unmatched_detections : list nat) :
  update_tracks st detections = Some st' →
  _match st detections = Some (matches, unmatched_tracks, unmatched_detections) →
  ∃ ts, apply_matches detections matches (tracks st) = Some ts
        ∧ ∀ k, k ∈ unmatched_tracks →
               ∃ t, ts !! k = Some t
                    ∧ (k ∉ matches.*1 → tracks st !! k = Some t)
                    ∧ tracks st' !! k
                      = Some (mark_missed (is_Covered t (to_tlwh <$> tracks st) (3 # 4))).
Proof.
  intros Hu Hm.
  destruct (update_tracks_inv _ _ _ Hu) as (m & u & ud & ts1 & ts2 & nid & Hm' & H1 & H2 & H3).
  rewrite Hm in Hm'. injection Hm' as <- <- <-.
  exists ts1. split; [done|]. intros k Hk.
  pose proof (apply_misses_in_range _ _ _ _ _ H2 k Hk) as [t Ht].
  exists t. split; [done|]. split.
  { intros Hnot. by rewrite <- (apply_matches_other _ _ _ _ _ H1 Hnot). }
  rewrite apply_misses_spec in H2;
    [| by eapply match_unmatched_NoDup | by eapply apply_misses_in_range].
  injection H2 as <- _.
  destruct (initiate_tracks_prefix _ _ _ _ H3) as (new & -> & _). simpl.
  rewrite lookup_app_l.
  2:{ rewrite length_imap. by eapply lookup_lt_Some. }
  rewrite list_lookup_imap, Ht. simpl. unfold miss_at.
  by rewrite decide_True.
Qed.

End Misses.


Lemma update_cover_test_before_miss_witness :
  let st := tracker_with
              [track_at 1 Confirmed 1 (mkBox 0 0 10 10);
               track_at 2 Confirmed 1 (mkBox 1 0 10 10)] 3 [] in
  let d := mkDetection _ (mkBox 7 0 10 10) 0 in
  ∃ st' t,
    update_tracks st [d] = Some st'
    ∧ to_tlwh <$> tracks st = [mkBox 0 0 10 10; mkBox 1 0 10 10]
    ∧ to_tlwh <$> tracks st' = [mkBox 7 0 10 10; mkBox 1 0 10 10]
    ∧ tracks st' !! 1%nat
      = Some (mark_missed (is_Covered t (to_tlwh <$> tracks st) (3 # 4)))
    ∧ Covered t = false
    ∧ Covered (mark_missed (is_Covered t (to_tlwh <$> tracks st) (3 # 4))) = true
    ∧ Covered (mark_missed (is_Covered t (to_tlwh <$> tracks st') (3 # 4))) = false.
Proof.
  intros st d.
  destruct (update_tracks st [d]) as [st'|] eqn:Hu; [|discriminate Hu].
  destruct (update_cover_test_before_miss st st' [d] [(0, 0)]%nat [1]%nat [] Hu eq_refl)
    as (ts & Hts & Hk).
  destruct (Hk 1%nat) as (t & Ht & Hsame & Hst'); [left|].
  exists st', t.
  assert (Ht' : t = track_at 2 Confirmed 1 (mkBox 1 0 10 10)).
  { assert (Hs : tracks st !! 1%nat = Some t).
    { apply Hsame. intros Hin. apply list_elem_of_singleton in Hin. discriminate Hin. }
    injection Hs as <-. reflexivity. }
  split; [reflexivity|]. split; [reflexivity|].
  split; [by injection Hu as <-|]. split; [exact Hst'|].
  injection Hu as <-. subst t. repeat split; reflexivity.
Defined.

(** ** Retiring tracks and refitting the metric *)

Section Retire.
Context `{Assignment}.

Lemma append_covered_spec (ts : list Track) (covered : list Cover) :
  append_covered ts covered
  = covered ++ (cover_of <$> filter (λ t, Covered t = true) ts).
Proof.
  revert covered. induction ts as [|t ts IH]; intros covered; simpl.
  - by rewrite app_nil_r.
  - rewrite IH, filter_cons. destruct (Covered t); case_decide; try done.
    by rewrite <- app_assoc.
Qed.

Lemma gather_spec (ts : list Track) (fs : list Feature) (targets : list Z) :
  gather ts fs targets
  = (settled <$> ts,
     fs ++ (filter (λ t, is_confirmed t = true) ts ≫= features),
     targets ++ (filter (λ t, is_confirmed t = true) ts
                 ≫= λ t, (λ _, track_id t) <$> features t)).
Proof.
  revert fs targets. induction ts as [|t ts IH]; intros fs targets; simpl.
  - by rewrite !app_nil_r.
  - rewrite filter_cons. unfold settled at 1.
    destruct (is_confirmed t) eqn:Hc; simpl; rewrite IH.
    + by rewrite <- !app_assoc.
    + done.
Qed.

Lemma kept_settled (t : Track) : kept (settled t) = kept t.
Proof. unfold settled. by destruct (is_confirmed t). Qed.

Lemma is_confirmed_settled (t : Track) : is_confirmed (settled t) = is_confirmed t.
Proof. unfold settled. by destruct (is_confirmed t) eqn:Hc. Qed.

Lemma track_id_settled (t : Track) : track_id (settled t) = track_id t.
Proof. unfold settled. by destruct (is_confirmed t). Qed.

Lemma tracks_refit (st : Tracker) : tracks (refit st) = settled <$> tracks st.
Proof. unfold refit, refit_arguments. by rewrite gather_spec. Qed.

Lemma Covered_lists_refit (st : Tracker) : Covered_lists (refit st) = Covered_lists st.
Proof. unfold refit, refit_arguments. by rewrite gather_spec. Qed.

Lemma next_id_refit_retire (st : Tracker) : _next_id (refit (retire st)) = _next_id st.
Proof. unfold refit, refit_arguments. by rewrite gather_spec. Qed.

Lemma update_inv (st st' : Tracker) (ds : list Detection) :
  update st ds = Some st' →
  ∃ st1, update_tracks st ds = Some st1 ∧ st' = refit (retire st1).
Proof.
  unfold update. destruct (update_tracks st ds) as [st1|]; [|done].
  intros [= <-]. by exists st1.
Qed.

(** A track is among the active tracks after [update] exactly when it
    passed the filter of line 97. *)
Lemma active_after_update (ts : list Track) (t : Track) :
  t ∈ ts →
  settled t ∈ settled <$> filter (λ t, kept t = true) ts ↔ kept t = true.
Proof.
  intros Ht. rewrite list_elem_of_fmap. split.
  - intros (t' & Heq & Ht'). apply list_elem_of_filter in Ht' as [Hk _].
    by rewrite <- kept_settled, Heq, kept_settled.
  - intros Hk. exists t. split; [done|]. by apply list_elem_of_filter.
Qed.

(** C5.  After [update], every track it handled is in exactly one of
    three places: among the active tracks and not covered; in the covered
    ledger and not among the active tracks; or deleted and in neither.
    Every track flagged covered has its entry appended to the ledger and is
    filtered out of the active tracks, and every Deleted track is filtered
    out of the active tracks. *)
Theorem update_sorts_tracks (st st' : Tracker) (detections : list Detection) :
  update st detections = Some st' →
  ∃ st1,
    update_tracks st detections = Some st1
    ∧ tracks st' = settled <$> filter (λ t, kept t = true) (tracks st1)
    ∧ Covered_lists st'
      = Covered_lists st1 ++ (cover_of <$> filter (λ t, Covered t = true) (tracks st1))
    ∧ ∀ t, t ∈ tracks st1 →
        exactly_one
          (settled t ∈ tracks st' ∧ Covered t = false)
          (cover_of t ∈ Covered_lists st' ∧ (settled t ∉ tracks st'))
          (is_deleted t = true ∧ (settled t ∉ tracks st')
           ∧ (cover_of t ∉ Covered_lists st'))
        ∧ (Covered t = true → cover_of t ∈ Covered_lists st' ∧ (settled t ∉ tracks st'))
        ∧ (is_deleted t = true → settled t ∉ tracks st')
        ∧ (is_deleted t = false → Covered t = false → settled t ∈ tracks st').
Proof.
  intros Hu. destruct (update_inv _ _ _ Hu) as (st1 & Hu1 & ->).
  exists st1. split; [done|].
  assert (Htr : tracks (refit (retire st1))
                = settled <$> filter (λ t, kept t = true) (tracks st1)).
  { by rewrite tracks_refit. }
  assert (Hled : Covered_lists (refit (retire st1))
                 = Covered_lists st1
                   ++ (cover_of <$> filter (λ t, Covered t = true) (tracks st1))).
  { rewrite Covered_lists_refit. simpl. apply append_covered_spec. }
  split; [done|]. split; [done|]. intros t Ht.
  rewrite Htr, Hled. pose proof (active_after_update _ _ Ht) as Hact.
  assert (Hcov : Covered t = true →
                 cover_of t ∈ Covered_lists st1
                   ++ (cover_of <$> filter (λ t, Covered t = true) (tracks st1))).
  { intros Hc. apply elem_of_app. right. apply list_elem_of_fmap.
    exists t. split; [done|]. by apply list_elem_of_filter. }
  unfold exactly_one, kept in *. rewrite Hact. clear Hact.
  destruct (classic (cover_of t ∈ Covered_lists st1
              ++ (cover_of <$> filter (λ t, Covered t = true) (tracks st1))))
    as [Hin|Hin]; revert Hcov Hin;
    generalize (cover_of t ∈ Covered_lists st1
              ++ (cover_of <$> filter (λ t, Covered t = true) (tracks st1)));
    intros L Hcov Hin;
    destruct (Covered t), (is_deleted t); simpl; intuition congruence.
Qed.

Lemma metric_initiate_tracks (ds : list Detection) (ks : list nat) (st st' : Tracker) :
  initiate_tracks ds ks st = Some st' → metric st' = metric st.
Proof.
  revert st. induction ks as [|k ks IH]; intros st Hi; simpl in Hi.
  - by injection Hi as <-.
  - destruct (ds !! k) as [d|]; [|done]. simpl in Hi. rewrite (IH _ Hi).
    unfold _initiate_track. by destruct (new_id_track _ _) as [[[] id] l].
Qed.

(** C7.  At the end of [update] the metric is refitted with the
    features of the active tracks that are Confirmed, each with the id of
    its track as target, and with the ids of those tracks as
    [active_targets]; afterwards the accumulator of every Confirmed track
    is empty. *)
Theorem update_refits_metric (st st' : Tracker) (detections : list Detection) :
  update st detections = Some st' →
  ∃ st1,
    update_tracks st detections = Some st1
    ∧ let confirmed := filter (λ t, is_confirmed t = true) (tracks (retire st1)) in
      refit_arguments (tracks (retire st1))
      = (confirmed ≫= features,
         confirmed ≫= (λ t, (λ _, track_id t) <$> features t),
         track_id <$> confirmed)
      ∧ metric st'
        = partial_fit (metric st)
            (confirmed ≫= features)
            (confirmed ≫= (λ t, (λ _, track_id t) <$> features t))
            (track_id <$> confirmed)
      ∧ tracks st' = settled <$> tracks (retire st1)
      ∧ (∀ t, t ∈ tracks st' → is_confirmed t = true → features t = []).
Proof.
  intros Hu. destruct (update_inv _ _ _ Hu) as (st1 & Hu1 & ->).
  exists st1. split; [done|]. cbv zeta.
  assert (Hargs : refit_arguments (tracks (retire st1))
    = (filter (λ t, is_confirmed t = true) (tracks (retire st1)) ≫= features,
       filter (λ t, is_confirmed t = true) (tracks (retire st1))
         ≫= (λ t, (λ _, track_id t) <$> features t),
       track_id <$> filter (λ t, is_confirmed t = true) (tracks (retire st1)))).
  { unfold refit_arguments. by rewrite gather_spec. }
  split; [done|]. split; [|split].
  - unfold refit. rewrite Hargs, gather_spec. simpl.
    destruct (update_tracks_inv _ _ _ Hu1) as (m & u & ud & ts1 & ts2 & nid & _ & _ & _ & Hi).
    by rewrite (metric_initiate_tracks _ _ _ _ Hi).
  - apply tracks_refit.
  - intros t Ht Hc. rewrite tracks_refit in Ht.
    apply list_elem_of_fmap in Ht as (t0 & -> & _).
    unfold settled in *. destruct (is_confirmed t0) eqn:Hc0; [done | congruence].
Qed.

End Retire.

Lemma update_sorts_tracks_witness :
  let st := tracker_with
              [track_at 1 Confirmed 1 (mkBox 0 0 10 10);
               track_at 2 Confirmed 1 (mkBox 1 0 10 10);
               track_at 3 Tentative 1 (mkBox 300 300 10 10)] 4 [] in
  let d := mkDetection _ (mkBox 7 0 10 10) 0 in
  ∃ st' st1,
    update st [d] = Some st'
    ∧ update_tracks st [d] = Some st1
    ∧ track_id <$> tracks st1 = [1; 2; 3]
    ∧ track_id <$> tracks st' = [1]
    ∧ cover_id <$> Covered_lists st' = [2]
    ∧ ∀ t, t ∈ tracks st1 →
        exactly_one
          (settled t ∈ tracks st' ∧ Covered t = false)
          (cover_of t ∈ Covered_lists st' ∧ (settled t ∉ tracks st'))
          (is_deleted t = true ∧ (settled t ∉ tracks st')
           ∧ (cover_of t ∉ Covered_lists st')).
Proof.
  intros st d.
  destruct (update st [d]) as [st'|] eqn:Hu; [|discriminate Hu].
  destruct (update_sorts_tracks st st' [d] Hu) as (st1 & Hu1 & Htr & Hled & Hall).
  exists st', st1. split; [done|]. split; [done|].
  split; [by injection Hu1 as <-|].
  split; [by injection Hu as <-|].
  split; [by injection Hu as <-|].
  intros t Ht. by destruct (Hall t Ht) as (Hone & _).
Defined.

Lemma update_refits_metric_witness :
  let st := tracker_with
              [track_at 1 Confirmed 1 (mkBox 0 0 10 10);
               track_at 3 Tentative 1 (mkBox 300 300 10 10)] 4 [] in
  let ds := [mkDetection _ (mkBox 1 0 10 10) 55; mkDetection _ (mkBox 301 300 10 10) 66] in
  ∃ st' st1,
    update st ds = Some st'
    ∧ update_tracks st ds = Some st1
    ∧ refit_arguments (tracks (retire st1)) = ([55], [1], [1])
    ∧ metric st' = [(1, 55)]
    ∧ features <$> tracks st' = [[]; [66]]
    ∧ (∀ t, t ∈ tracks st' → is_confirmed t = true → features t = []).
Proof.
  intros st ds.
  destruct (update st ds) as [st'|] eqn:Hu; [|discriminate Hu].
  destruct (update_refits_metric st st' ds Hu) as (st1 & Hu1 & Hargs & Hm & Htr & Hempty).
  exists st', st1. split; [done|]. split; [done|].
  split; [by injection Hu1 as <-|].
  split; [by injection Hu as <-|].
  split; [by injection Hu as <-|].
  exact Hempty.
Defined.

(** ** Nothing to match *)

Section Empty.
Context `{Assignment}.

Lemma indices_cover_all (ts : list Track) (k : nat) :
  k ∈ confirmed_tracks ts ∨ k ∈ unconfirmed_tracks ts ↔ (k < length ts)%nat.
Proof.
  rewrite elem_of_confirmed_tracks, elem_of_unconfirmed_tracks. split.
  - intros [(t & Ht & _)|(t & Ht & _)]; by eapply lookup_lt_Some.
  - intros Hk. destruct (lookup_lt_is_Some_2 ts k Hk) as [t Ht].
    destruct (is_confirmed t) eqn:Hc; [left | right]; by exists t.
Qed.

Lemma imap_miss_at_all boxes (ks : list nat) (ts : list Track) :
  (∀ k, (k < length ts)%nat → k ∈ ks) →
  imap (miss_at boxes ks) ts = missed boxes <$> ts.
Proof.
  intros Hall. apply list_eq. intros i.
  rewrite list_lookup_imap, list_lookup_fmap.
  destruct (ts !! i) as [t|] eqn:Ht; [|done]. simpl. unfold miss_at.
  rewrite decide_True; [done|]. apply Hall. by eapply lookup_lt_Some.
Qed.

Lemma mapM_lookup_seq {A} (l : list A) :
  mapM (λ k, l !! k) (seq 0 (length l)) = Some l.
Proof.
  apply mapM_Some. apply Forall2_lookup. intros i.
  destruct (l !! i) as [x|] eqn:Hx.
  - rewrite (lookup_seq_lt 0 (length l) i) by (by eapply lookup_lt_Some).
    constructor. done.
  - rewrite lookup_seq_ge by (by apply lookup_ge_None). constructor.
Qed.

Lemma foldl_initiate_track (ds : list Detection) (st : Tracker) :
  ∃ new,
    tracks (foldl _initiate_track st ds) = tracks st ++ new
    ∧ Forall2 (λ d t, t = new_track (kf_initiate (tlwh d)) (track_id t)
                          (n_init st) (max_age st) (feature d)) ds new.
Proof.
  revert st. induction ds as [|d ds IH]; intros st; simpl.
  - exists []. by rewrite app_nil_r.
  - destruct (IH (_initiate_track st d)) as (new & Hnew & Hall).
    destruct (initiate_track_tracks st d) as (t & Ht & Hn & Ha & Heq).
    exists (t :: new). rewrite Hnew, Ht, <- app_assoc. split; [done|].
    constructor; [done|]. by rewrite Hn, Ha in Hall.
Qed.

Lemma set_same (st : Tracker) :
  set_next_id (set_tracks st (tracks st)) (_next_id st) = st.
Proof. by destruct st. Qed.

Lemma retire_fresh (st : Tracker) :
  Forall (λ t, state t = Tentative ∧ Covered t = false) (tracks st) →
  tracks (refit (retire st)) = tracks st.
Proof.
  intros Hall. rewrite tracks_refit. simpl.
  induction (tracks st) as [|t ts IH]; [done|].
  apply Forall_cons in Hall as [[Hs Hc] Hall].
  rewrite filter_cons_True by (unfold kept, is_deleted; by rewrite Hs, Hc).
  rewrite fmap_cons, IH by done. f_equal.
  unfold settled, is_confirmed. by rewrite Hs.
Qed.

Lemma new_tracks_fresh (n a : Z) (ds : list Detection) (new : list Track) :
  Forall2 (λ d t, t = new_track (kf_initiate (tlwh d)) (track_id t) n a (feature d))
    ds new →
  Forall (λ t, state t = Tentative ∧ Covered t = false) new.
Proof.
  induction 1 as [|d t ds' new' Ht Hall IH]; constructor; [|done]. by rewrite Ht.
Qed.

(** C8.  With an empty list of detections [update] returns a tracker:
    [_match] yields no match and every active track unmatched, every
    active track is missed, and no track is added.  With no active track
    [update] returns a tracker as well: every detection is unmatched and
    starts a new track. *)
Theorem update_nothing_to_match :
  nothing_to_match →
  (∀ st : Tracker,
      ∃ st1 u,
        _match st [] = Some ([], u, [])
        ∧ u ≡ₚ seq 0 (length (tracks st))
        ∧ update_tracks st [] = Some st1
        ∧ tracks st1 = missed (to_tlwh <$> tracks st) <$> tracks st
        ∧ Covered_lists st1 = Covered_lists st
        ∧ update st [] = Some (refit (retire st1))
        ∧ tracks (refit (retire st1))
          = settled <$> filter (λ t, kept t = true)
                          (missed (to_tlwh <$> tracks st) <$> tracks st))
  ∧ (∀ (st : Tracker) (detections : list Detection),
      tracks st = [] →
      ∃ st1,
        _match st detections = Some ([], [], seq 0 (length detections))
        ∧ update_tracks st detections = Some st1
        ∧ st1 = foldl _initiate_track st detections
        ∧ update st detections = Some (refit (retire st1))
        ∧ Forall2 (λ d t, t = new_track (kf_initiate (tlwh d)) (track_id t)
                              (n_init st) (max_age st) (feature d))
            detections (tracks (refit (retire st1)))).
Proof.
  intros [Hcascade Hiou]. split.
  - intros st.
    destruct (Hcascade (metric st) (max_age st) (tracks st) []
                (confirmed_tracks (tracks st))) as (ua & Hca & Hua); [by left|].
    assert (Hvalid : ∀ k, k ∈ ua → is_Some (tracks st !! k)).
    { intros k Hk. rewrite Hua in Hk. apply elem_of_confirmed_tracks in Hk as (t & -> & _).
      done. }
    set (recent := filter (λ k, (λ t, time_since_update t =? 1) <$> tracks st !! k = Some true) ua).
    set (older := filter (λ k, (λ t, negb (time_since_update t =? 1)) <$> tracks st !! k
                               = Some true) ua).
    destruct (Hiou (max_iou_distance st) (tracks st) []
                (unconfirmed_tracks (tracks st) ++ recent) []) as (ub & Hmb & Hub);
      [by right|].
    assert (Hm : _match st [] = Some ([], list_set (older ++ ub), [])).
    { unfold _match, iou_track_candidates. rewrite Hca. simpl.
      rewrite !(select_by_Some _ _ _ Hvalid). simpl. fold recent older.
      by rewrite Hmb. }
    assert (Hmem : ∀ k, k ∈ list_set (older ++ ub) ↔ (k < length (tracks st))%nat).
    { intros k. unfold list_set. rewrite elem_of_remove_dups, elem_of_app, Hub, elem_of_app.
      unfold older, recent. rewrite !elem_of_select, <- indices_cover_all, Hua.
      rewrite elem_of_confirmed_tracks, elem_of_unconfirmed_tracks. split.
      - intros [[_ (t & Ht & _)]|[Hu|[_ (t & Ht & _)]]]; [|by right|];
          (destruct (is_confirmed t) eqn:Hc; [left | right]; by exists t).
      - intros [(t & Ht & Hc)|Hu]; [|right; by left].
        destruct (time_since_update t =? 1) eqn:Htsu.
        + right. right. split; [by exists t|]. by exists t.
        + left. split; [by exists t|]. exists t. by rewrite Htsu. }
    assert (Hperm : list_set (older ++ ub) ≡ₚ seq 0 (length (tracks st))).
    { apply NoDup_Permutation; [apply NoDup_list_set | apply NoDup_seq |].
      intros k. rewrite Hmem, elem_of_seq. lia. }
    assert (Hmiss : apply_misses (to_tlwh <$> tracks st) (list_set (older ++ ub))
                      (tracks st) (_next_id st)
                    = Some (missed (to_tlwh <$> tracks st) <$> tracks st,
                            _next_id st - Z.of_nat (drops (to_tlwh <$> tracks st) (tracks st)
                                                      (list_set (older ++ ub))))).
    { rewrite apply_misses_spec.
      - rewrite imap_miss_at_all; [done|]. intros k Hk. by apply Hmem.
      - apply NoDup_list_set.
      - intros k Hk. apply lookup_lt_is_Some. by apply Hmem. }
    eexists _, (list_set (older ++ ub)).
    split; [done|]. split; [done|].
    assert (Hu1 : update_tracks st []
                  = Some (set_next_id
                            (set_tracks st (missed (to_tlwh <$> tracks st) <$> tracks st))
                            (_next_id st - Z.of_nat (drops (to_tlwh <$> tracks st) (tracks st)
                                                       (list_set (older ++ ub)))))).
    { unfold update_tracks. rewrite Hm. simpl. rewrite Hmiss. done. }
    split; [exact Hu1|]. split; [done|]. split; [done|].
    split; [unfold update; by rewrite Hu1|].
    by rewrite tracks_refit.
  - intros st ds Hempty.
    destruct (Hcascade (metric st) (max_age st) (tracks st) ds
                (confirmed_tracks (tracks st))) as (ua & Hca & Hua).
    { right. by rewrite Hempty. }
    rewrite Hempty in Hua. apply Permutation_nil_r in Hua. subst ua.
    destruct (Hiou (max_iou_distance st) (tracks st) ds
                (unconfirmed_tracks (tracks st)) (seq 0 (length ds))) as (ub & Hmb & Hub).
    { left. by rewrite Hempty. }
    rewrite Hempty in Hub. apply Permutation_nil_r in Hub. subst ub.
    assert (Hm : _match st ds = Some ([], [], seq 0 (length ds))).
    { unfold _match, iou_track_candidates. rewrite Hca. simpl.
      rewrite app_nil_r, Hmb. done. }
    assert (Hu1 : update_tracks st ds = Some (foldl _initiate_track st ds)).
    { unfold update_tracks. rewrite Hm. simpl. rewrite Hempty. simpl.
      rewrite initiate_tracks_fold, mapM_lookup_seq. simpl.
      rewrite <- Hempty, set_same. done. }
    exists (foldl _initiate_track st ds).
    split; [done|]. split; [done|]. split; [done|].
    split; [unfold update; by rewrite Hu1|].
    destruct (foldl_initiate_track ds st) as (new & Hnew & Hall).
    rewrite Hempty in Hnew. simpl in Hnew.
    rewrite retire_fresh; rewrite Hnew; [done|].
    by eapply new_tracks_fresh.
Qed.

End Empty.

Lemma pair_on_no_detection (bound : Q) (ts : list Track) (ds : list Detection) (ks : list nat) :
  pair_on bound ts ds ks [] = ([], ks, []).
Proof.
  induction ks as [|k ks IH]; [done|]. simpl. rewrite IH.
  by destruct (ts !! k).
Qed.

Lemma by_overlap_nothing_to_match : nothing_to_match.
Proof.
  split.
  - intros m a ts ds track_indices _. by exists track_indices.
  - intros q ts ds track_indices detection_indices [->| ->]; simpl.
    + by exists [].
    + exists track_indices. by rewrite pair_on_no_detection.
Qed.

Lemma update_nothing_to_match_witness :
  let a := mkBox 0 0 10 10 in
  let b := mkBox 100 100 10 10 in
  let st := tracker_with [track_at 1 Tentative 1 a; track_at 2 Confirmed 1 b] 3 [] in
  let ds := [mkDetection _ a 5; mkDetection _ b 6] in
  (∃ st1 u,
      _match st [] = Some ([], u, [])
      ∧ u ≡ₚ [0; 1]%nat
      ∧ update st [] = Some (refit (retire st1))
      ∧ state <$> tracks st1 = [Deleted; Confirmed]
      ∧ track_id <$> tracks (refit (retire st1)) = [2])
  ∧ (∃ st1,
      _match (tracker_with [] 1 []) ds = Some ([], [], [0; 1]%nat)
      ∧ update (tracker_with [] 1 []) ds = Some (refit (retire st1))
      ∧ track_id <$> tracks (refit (retire st1)) = [1; 2]
      ∧ to_tlwh <$> tracks (refit (retire st1)) = [a; b]).
Proof.
  intros a b st ds.
  destruct (update_nothing_to_match by_overlap_nothing_to_match) as [Hnone Hnew].
  split.
  - destruct (Hnone st) as (st1 & u & Hm & Hu & Hu1 & Hts & Hl & Hup & Hfin).
    exists st1, u. split; [done|]. split; [done|]. split; [done|].
    split; [by rewrite Hts|]. by rewrite Hfin.
  - destruct (Hnew (tracker_with [] 1 []) ds eq_refl) as (st1 & Hm & Hu1 & -> & Hup & Hall).
    eexists. split; [exact Hm|]. split; [exact Hup|]. split; reflexivity.
Defined.

(** ** Track ids *)

Lemma submseteq_NoDup {A} (l k : list A) : l ⊆+ k → NoDup k → NoDup l.
Proof.
  intros Hsub Hk. apply submseteq_sublist_l in Hsub as (k' & Hsub & Hperm).
  rewrite <- Hperm in Hk. by eapply sublist_NoDup.
Qed.

Lemma submseteq_elem_of {A} (l k : list A) (x : A) : l ⊆+ k → x ∈ l → x ∈ k.
Proof.
  intros Hsub Hx. apply submseteq_sublist_l in Hsub as (k' & Hsub & Hperm).
  rewrite <- Hperm. by eapply sublist_subseteq.
Qed.

Lemma sweep_ids_sublist n (l : list Cover) :
  (length l ≤ n)%nat → cover_id <$> sweep l `sublist_of` cover_id <$> l.
Proof.
  revert l. induction n as [|n IH]; intros l Hn.
  { destruct l; [done | simpl in Hn; lia]. }
  destruct l as [|e rest]; [done|]. simpl in *.
  destruct (140 <=? cover_frames e + 1).
  - destruct rest as [|skipped rest']; [apply sublist_nil_l|].
    rewrite !fmap_cons. apply sublist_cons, sublist_skip, IH. simpl in Hn. lia.
  - rewrite !fmap_cons. apply sublist_skip, IH. lia.
Qed.

Section Ids.
Context `{Assignment}.

Lemma ids_well_formed_shrink (st st' : Tracker) :
  ids_in_use st' ⊆+ ids_in_use st → _next_id st' = _next_id st →
  ids_well_formed st → ids_well_formed st'.
Proof.
  intros Hsub Hn (H1 & Hrange & Hnd). unfold ids_well_formed. rewrite Hn.
  split; [done|]. split.
  - intros id Hid. apply Hrange. by eapply submseteq_elem_of.
  - by eapply submseteq_NoDup.
Qed.

Lemma track_id_track_predict (ts : list Track) :
  track_id <$> (track_predict <$> ts) = track_id <$> ts.
Proof. rewrite <- list_fmap_compose. done. Qed.

Lemma ids_well_formed_predict (st : Tracker) :
  ids_well_formed st → ids_well_formed (predict st).
Proof.
  apply ids_well_formed_shrink; [|done].
  unfold ids_in_use. simpl. rewrite track_id_track_predict, predict_covered_sweep.
  apply submseteq_skips_l, sublist_submseteq, (sweep_ids_sublist (length (Covered_lists st))).
  done.
Qed.

Lemma apply_misses_ids boxes (ks : list nat) (ts ts' : list Track) (nid nid' : Z) :
  apply_misses boxes ks ts nid = Some (ts', nid') → track_id <$> ts' = track_id <$> ts.
Proof.
  revert ts nid. induction ks as [|k ks IH]; intros ts nid Hm; simpl in Hm.
  - by injection Hm as <- _.
  - destruct (ts !! k) as [t|] eqn:Hk; [|done]. simpl in Hm.
    rewrite (IH _ _ Hm). apply (fmap_insert_same _ _ _ t); [done|].
    apply track_id_missed.
Qed.

(** One new track keeps the ids well formed and does not lower the
    counter. *)
Lemma ids_well_formed_initiate_track (st : Tracker) (d : Detection) :
  ids_well_formed st →
  ids_well_formed (_initiate_track st d)
  ∧ _next_id st ≤ _next_id (_initiate_track st d).
Proof.
  intros (H1 & Hrange & Hnd). unfold _initiate_track, new_id_track.
  destruct (find_cover (tlwh d) 0 (Covered_lists st)) as [[i id]|] eqn:Hf.
  - apply find_cover_inv in Hf as (k & c & -> & Hk & -> & _).
    simpl. split; [|lia].
    assert (Hperm : ids_in_use st
              ≡ₚ (track_id <$> tracks st ++
                    [new_track (kf_initiate (tlwh d)) (cover_id c) (n_init st) (max_age st)
                       (feature d)])
                 ++ (cover_id <$> delete k (Covered_lists st))).
    { unfold ids_in_use. rewrite fmap_app, <- app_assoc. simpl.
      apply Permutation_app_head.
      rewrite (delete_Permutation _ _ _ Hk) at 1. done. }
    unfold ids_well_formed, ids_in_use. simpl. rewrite <- Hperm.
    split; [done|]. split; [|done].
    intros id Hid. apply Hrange. by rewrite Hperm.
  - simpl. split; [|lia]. unfold ids_well_formed, ids_in_use. simpl.
    rewrite fmap_app, <- app_assoc. simpl.
    assert (Hperm : (track_id <$> tracks st) ++ _next_id st :: (cover_id <$> Covered_lists st)
                    ≡ₚ _next_id st :: ids_in_use st).
    { unfold ids_in_use. by rewrite <- Permutation_middle. }
    split; [lia|]. split.
    + intros id Hid. rewrite Hperm in Hid.
      apply elem_of_cons in Hid as [->|Hid]; [lia|]. specialize (Hrange id Hid). lia.
    + rewrite Hperm. apply NoDup_cons. split; [|done]. intros Hin. specialize (Hrange _ Hin). lia.
Qed.

Lemma ids_well_formed_initiate_tracks (ds : list Detection) (ks : list nat) (st st' : Tracker) :
  initiate_tracks ds ks st = Some st' →
  ids_well_formed st →
  ids_well_formed st' ∧ _next_id st ≤ _next_id st'.
Proof.
  revert st. induction ks as [|k ks IH]; intros st Hi Hwf; simpl in Hi.
  - injection Hi as <-. split; [done | lia].
  - destruct (ds !! k) as [d|]; [|done]. simpl in Hi.
    destruct (ids_well_formed_initiate_track st d Hwf) as [Hwf' Hle].
    destruct (IH _ Hi Hwf') as [Hwf'' Hle']. split; [done | lia].
Qed.

(** The tracks that stay and the tracks that go to the ledger are
    different tracks. *)
Lemma kept_covered_submseteq (ts : list Track) :
  (track_id <$> filter (λ t, kept t = true) ts)
  ++ (track_id <$> filter (λ t, Covered t = true) ts)
  ⊆+ track_id <$> ts.
Proof.
  induction ts as [|t ts IH]; [done|].
  destruct (Covered t) eqn:Hc.
  - rewrite (filter_cons_False (λ t, kept t = true))
      by (unfold kept; rewrite Hc, andb_false_r; done).
    rewrite (filter_cons_True (λ t, Covered t = true)) by done.
    rewrite !fmap_cons, <- Permutation_middle. by apply submseteq_skip.
  - rewrite (filter_cons_False (λ t, Covered t = true)) by congruence.
    destruct (is_deleted t) eqn:Hd.
    + rewrite (filter_cons_False (λ t, kept t = true))
        by (unfold kept; rewrite Hd; done).
      rewrite fmap_cons. by apply submseteq_cons.
    + rewrite (filter_cons_True (λ t, kept t = true))
        by (unfold kept; rewrite Hc, Hd; done).
      rewrite !fmap_cons. simpl. by apply submseteq_skip.
Qed.

Lemma ids_well_formed_retire (st : Tracker) :
  ids_well_formed st → ids_well_formed (refit (retire st)).
Proof.
  apply ids_well_formed_shrink; [|apply next_id_refit_retire].
  unfold ids_in_use. rewrite tracks_refit, Covered_lists_refit. simpl.
  rewrite append_covered_spec, fmap_app, <- !list_fmap_compose.
  rewrite (list_fmap_ext (track_id ∘ settled) track_id)
    by (intros; apply track_id_settled).
  change (cover_id ∘ cover_of) with (track_id : Track → Z).
  rewrite (comm (++) (cover_id <$> Covered_lists st)), app_assoc.
  apply submseteq_skips_r, kept_covered_submseteq.
Qed.

(** C3, as amended.  A new tracker has well-formed ids: positive, below
    the counter, and pairwise distinct over the active tracks and the
    ledger together.  [predict] keeps them well formed and leaves the
    counter alone.  So does an [update] in which no unmatched track is
    dropped at once, that is, whose loop over the unmatched tracks ends
    with the counter it started with; and then the counter does not
    decrease, so that ids are minted in increasing order.  Hence the ids
    are well formed in every state reached from a new tracker by such
    calls. *)
Theorem ids_well_formed_preserved :
  (∀ m : Metric, ids_well_formed (init m))
  ∧ (∀ st : Tracker,
      ids_well_formed st →
      ids_well_formed (predict st) ∧ _next_id (predict st) = _next_id st)
  ∧ (∀ (st st' : Tracker) (detections : list Detection),
      ids_well_formed st →
      update st detections = Some st' →
      counter_after_misses st detections = Some (_next_id st) →
      ids_well_formed st' ∧ _next_id st ≤ _next_id st')
  ∧ (∀ st : Tracker, reached_quietly st → ids_well_formed st).
Proof.
  assert (Hinit : ∀ m : Metric, ids_well_formed (init m)).
  { intros m. unfold ids_well_formed, ids_in_use. simpl. split; [lia|].
    split; [by intros id ?%elem_of_nil | constructor]. }
  assert (Hstep : ∀ (st st' : Tracker) (detections : list Detection),
      ids_well_formed st →
      update st detections = Some st' →
      counter_after_misses st detections = Some (_next_id st) →
      ids_well_formed st' ∧ _next_id st ≤ _next_id st').
  2:{ split; [done|]. split; [|split; [done|]].
      - intros st Hwf. split; [by apply ids_well_formed_predict | done].
      - induction 1 as [m|st _ IH|st st' ds _ IH Hu Hq].
        + apply Hinit.
        + by apply ids_well_formed_predict.
        + by destruct (Hstep st st' ds IH Hu Hq). }
  intros st st' ds Hwf Hu Hquiet.
    destruct (update_inv _ _ _ Hu) as (st1 & Hu1 & ->).
    destruct (update_tracks_inv _ _ _ Hu1)
      as (m & u & ud & ts1 & ts2 & nid & Hm & H1 & H2 & H3).
    destruct (counter_after_misses_inv _ _ _ Hquiet)
      as (m' & u' & ud' & ts1' & ts2' & Hm' & H1' & H2').
    rewrite Hm in Hm'. injection Hm' as <- <- <-.
    rewrite H1 in H1'. injection H1' as <-.
    rewrite H2 in H2'. injection H2' as <- ->.
    assert (Hwf2 : ids_well_formed (set_next_id (set_tracks st ts2) (_next_id st))).
    { revert Hwf. apply ids_well_formed_shrink; [|done].
      unfold ids_in_use. simpl.
      by rewrite (apply_misses_ids _ _ _ _ _ _ H2), (apply_matches_ids _ _ _ _ H1). }
    destruct (ids_well_formed_initiate_tracks _ _ _ _ H3 Hwf2) as [Hwf1 Hle].
  split; [by apply ids_well_formed_retire|].
  rewrite next_id_refit_retire. exact Hle.
Qed.

End Ids.

Lemma ids_well_formed_preserved_witness :
  let ds := [mkDetection _ (mkBox 0 0 10 10) 5; mkDetection _ (mkBox 100 100 10 10) 6] in
  ∃ st',
    update (predict new_tracker) ds = Some st'
    ∧ ids_well_formed st'
    ∧ ids_in_use st' = [1; 2]
    ∧ _next_id new_tracker ≤ _next_id st'.
Proof.
  intros ds.
  destruct ids_well_formed_preserved as (Hinit & Hpredict & Hupdate & Hreached).
  destruct (update (predict new_tracker) ds) as [st'|] eqn:Hu; [|discriminate Hu].
  destruct (Hupdate (predict new_tracker) st' ds) as [_ Hle];
    [apply Hpredict, Hinit | exact Hu | reflexivity |].
  assert (Hwf : ids_well_formed st').
  { apply Hreached.
    apply (reached_update (predict new_tracker) st' ds);
      [apply reached_predict, reached_init | exact Hu | reflexivity]. }
  exists st'. split; [done|]. split; [done|]. split; [|exact Hle].
  assert (Hids : ids_in_use <$> update (predict new_tracker) ds = Some [1; 2])
    by reflexivity.
  rewrite Hu in Hids. by injection Hids.
Defined.

(** C3 fails as stated.  Two objects enter in the first frame and get
    the ids 1 and 2.  In the second frame the first is not detected again
    and a third object appears: the Tentative track 1 is deleted on its
    miss and the counter goes back from 3 to 2, so the third object is
    given the id 2 while track 2 is still active.  In the second sequence
    three objects get the ids 1, 2 and 3, the first two are dropped at
    once, and the next id minted is 2, lower than the id 3 minted before. *)
Lemma ids_not_unique :
  let a := mkDetection _ (mkBox 0 0 10 10) 5 in
  let b := mkDetection _ (mkBox 100 100 10 10) 6 in
  let c := mkDetection _ (mkBox 200 200 10 10) 7 in
  let d := mkDetection _ (mkBox 300 300 10 10) 8 in
  (∃ st,
      run new_tracker [[a; b]; [b; c]] = Some st
      ∧ (track_id <$> tracks st) = [2; 2]
      ∧ (to_tlwh <$> tracks st) = [tlwh b; tlwh c]
      ∧ Covered_lists st = []
      ∧ ¬ NoDup (ids_in_use st))
  ∧ (∃ st,
      run new_tracker [[a; b; c]; [c; d]] = Some st
      ∧ (track_id <$> tracks st) = [3; 2]
      ∧ (to_tlwh <$> tracks st) = [tlwh c; tlwh d]).
Proof.
  intros a b c d. split.
  - destruct (run new_tracker [[a; b]; [b; c]]) as [st|] eqn:Hr; [|discriminate Hr].
    assert (Hids : (λ st, track_id <$> tracks st) <$> run new_tracker [[a; b]; [b; c]]
                   = Some [2; 2]) by reflexivity.
    assert (Hbox : (λ st, to_tlwh <$> tracks st) <$> run new_tracker [[a; b]; [b; c]]
                   = Some [tlwh b; tlwh c]) by reflexivity.
    assert (Hled : Covered_lists <$> run new_tracker [[a; b]; [b; c]] = Some [])
      by reflexivity.
    rewrite Hr in Hids, Hbox, Hled. simpl in Hids, Hbox, Hled.
    injection Hids as Hids. injection Hbox as Hbox. injection Hled as Hled.
    exists st. split; [done|]. split; [done|]. split; [done|]. split; [done|].
    unfold ids_in_use. rewrite Hids, Hled. simpl.
    intros Hnd. apply NoDup_cons in Hnd as [Hnotin _]. apply Hnotin. left.
  - destruct (run new_tracker [[a; b; c]; [c; d]]) as [st|] eqn:Hr; [|discriminate Hr].
    assert (Hids : (λ st, track_id <$> tracks st) <$> run new_tracker [[a; b; c]; [c; d]]
                   = Some [3; 2]) by reflexivity.
    assert (Hbox : (λ st, to_tlwh <$> tracks st) <$> run new_tracker [[a; b; c]; [c; d]]
                   = Some [tlwh c; tlwh d]) by reflexivity.
    rewrite Hr in Hids, Hbox. simpl in Hids, Hbox.
    injection Hids as Hids. injection Hbox as Hbox.
    exists st. split; [done|]. split; done.
Qed.

(** * Further properties *)

(** ** The covered ledger over several frames *)

Lemma sweep_length n (l : list Cover) :
  (length l ≤ n)%nat → (length (sweep l) ≤ length l)%nat.
Proof.
  revert l. induction n as [|n IH]; intros l Hn.
  { destruct l; [simpl; lia | simpl in Hn; lia]. }
  destruct l as [|e rest]; [simpl; lia|]. simpl in Hn. simpl.
  destruct (140 <=? cover_frames e + 1).
  - destruct rest as [|skipped rest']; [simpl; lia|]. simpl in Hn.
    specialize (IH rest' ltac:(lia)). simpl. lia.
  - specialize (IH rest ltac:(lia)). simpl. lia.
Qed.

(** X1.  One call of [predict] never lengthens the ledger, and it
    removes at most every other entry: of [n] entries at least
    [(n - 1) / 2] are left, whatever their counters. *)
Theorem predict_covered_length (l : list Cover) :
  (length (predict_covered l) ≤ length l ≤ 2 * length (predict_covered l) + 1)%nat.
Proof.
  rewrite predict_covered_sweep.
  assert (Hboth : ∀ n (k : list Cover), (length k ≤ n)%nat →
            (length (sweep k) ≤ length k ≤ 2 * length (sweep k) + 1)%nat).
  { induction n as [|n IH]; intros k Hn.
    { destruct k; [simpl; lia | simpl in Hn; lia]. }
    destruct k as [|e rest]; [simpl; lia|]. simpl in Hn. simpl.
    destruct (140 <=? cover_frames e + 1).
    - destruct rest as [|skipped rest']; [simpl; lia|]. simpl in Hn.
      specialize (IH rest' ltac:(lia)). simpl. lia.
    - specialize (IH rest ltac:(lia)). simpl. lia. }
  by apply (Hboth (length l)).
Qed.

(** X2.  [predict] neither adds, reorders nor rewrites ledger entries:
    the ids and boxes left are a subsequence of those before, and an entry
    left is an entry as it was or that entry one frame older, with a
    counter below 140 in the second case. *)
Theorem predict_covered_keeps_entries (l : list Cover) :
  cover_key <$> predict_covered l `sublist_of` cover_key <$> l
  ∧ ∀ e', e' ∈ predict_covered l →
          ∃ e, e ∈ l ∧ (e' = e ∨ (e' = aged 1 e ∧ cover_frames e' < 140)).
Proof.
  rewrite predict_covered_sweep. split.
  - by apply (sweep_keys_sublist (length l)).
  - intros e' He'. destruct (sweep_origin (length l) l e' (Nat.le_refl _) He')
      as (e & He & [->|[-> Hlt]]); exists e; (split; [done|]); [by left | right].
    split; [done | simpl; lia].
Qed.

Lemma aged_aged (n m : Z) (c : Cover) : aged n (aged m c) = aged (m + n) c.
Proof. unfold aged. simpl. f_equal. lia. Qed.

(** X3.  While every counter stays below 140, [n] calls of [predict]
    add exactly [n] to every counter and drop nothing. *)
Theorem predict_covered_iter_young (n : nat) (l : list Cover) :
  (∀ e, e ∈ l → cover_frames e + Z.of_nat n < 140) →
  Nat.iter n predict_covered l = aged (Z.of_nat n) <$> l.
Proof.
  revert l. induction n as [|n IH]; intros l Hl.
  - simpl. rewrite <- (list_fmap_id l) at 1. apply list_fmap_ext.
    intros i [id b f] _. unfold aged. simpl. f_equal. lia.
  - rewrite Nat.iter_succ_r, predict_covered_sweep.
    rewrite sweep_young by (intros e He; specialize (Hl e He); lia).
    rewrite IH.
    + rewrite <- list_fmap_compose. apply list_fmap_ext. intros i e _. simpl.
      change (bump e) with (aged 1 e). rewrite aged_aged. f_equal. lia.
    + intros e He. apply list_elem_of_fmap in He as (x & -> & Hx).
      specialize (Hl x Hx). simpl. lia.
Qed.

Lemma predict_covered_iter_young_witness :
  let b := mkBox 10 10 20 40 in
  Nat.iter 3 predict_covered [mkCover 1 b 0; mkCover 2 b 136]
  = [mkCover 1 b 3; mkCover 2 b 139].
Proof.
  intros b. apply (predict_covered_iter_young 3 [mkCover 1 b 0; mkCover 2 b 136]).
  intros e He. repeat (apply elem_of_cons in He as [->|He]; [simpl; lia|]).
  by apply elem_of_nil in He.
Defined.

Lemma sweep_removes n (l : list Cover) (e : Cover) :
  (length l ≤ n)%nat → e ∈ l → 140 ≤ cover_frames e + 1 →
  (length (sweep l) < length l)%nat.
Proof.
  revert l. induction n as [|n IH]; intros l Hn He Hold.
  { destruct l; [by apply elem_of_nil in He | simpl in Hn; lia]. }
  destruct l as [|c rest]; [by apply elem_of_nil in He|]. simpl in Hn. simpl.
  destruct (Z.leb_spec 140 (cover_frames c + 1)) as [Hc|Hc].
  - destruct rest as [|skipped rest']; [simpl; lia|]. simpl in Hn.
    pose proof (sweep_length n rest' ltac:(lia)). simpl. lia.
  - apply elem_of_cons in He as [->|He]; [lia|].
    specialize (IH rest ltac:(lia) He Hold). simpl. lia.
Qed.

Lemma iter_sweep_nil (n : nat) : Nat.iter n sweep [] = [].
Proof. induction n as [|n IH]; [done|]. by rewrite Nat.iter_succ_r. Qed.

Lemma iter_predict_covered (n : nat) (l : list Cover) :
  Nat.iter n predict_covered l = Nat.iter n sweep l.
Proof.
  revert l. induction n as [|n IH]; intros l; [done|].
  by rewrite !Nat.iter_succ_r, predict_covered_sweep, IH.
Qed.

(** X4.  Every ledger entry expires, although a call of [predict] may
    step over it: if [g] frames bring every counter to 139, then after
    [length l + g] calls of [predict] with nothing added the ledger is
    empty.  For counters that start at 0 or more this is within
    [length l + 139] calls. *)
Theorem predict_covered_expires (n : nat) (l : list Cover) (g : Z) :
  0 ≤ g →
  (∀ e, e ∈ l → 139 - cover_frames e ≤ g) →
  (length l + Z.to_nat g ≤ n)%nat →
  Nat.iter n predict_covered l = [].
Proof.
  rewrite iter_predict_covered.
  revert l g. induction n as [|n IH]; intros l g Hg Hl Hn.
  { destruct l; [done | simpl in Hn; lia]. }
  rewrite Nat.iter_succ_r.
  destruct l as [|c rest]; [apply iter_sweep_nil|].
  destruct (decide (Forall (λ e, cover_frames e + 1 < 140) (c :: rest))) as [Hyoung|Hold].
  - rewrite Forall_forall in Hyoung. rewrite (sweep_young _ Hyoung).
    assert (Hc : cover_frames c + 1 < 140) by (apply Hyoung; left).
    assert (Hgc : 139 - cover_frames c ≤ g) by (apply Hl; left).
    apply (IH _ (g - 1)); [lia | |].
    + intros e He. apply list_elem_of_fmap in He as (x & -> & Hx).
      specialize (Hl x Hx). simpl. lia.
    + rewrite length_fmap. simpl in *. lia.
  - apply not_Forall_Exists in Hold; [|intros x; apply _].
    apply Exists_exists in Hold as (e & He & Hold). simpl in Hold.
    pose proof (sweep_removes (length (c :: rest)) (c :: rest) e (Nat.le_refl _) He
                  ltac:(lia)) as Hshort.
    apply (IH _ g); [done | |lia].
    intros e' He'.
    destruct (sweep_origin (length (c :: rest)) _ e' (Nat.le_refl _) He')
      as (x & Hx & [->|[-> _]]); specialize (Hl x Hx); simpl; lia.
Qed.

Lemma predict_covered_expires_witness :
  let b := mkBox 10 10 20 40 in
  Nat.iter 5 predict_covered [mkCover 1 b 138; mkCover 2 b 138; mkCover 3 b 137] = [].
Proof.
  intros b.
  apply (predict_covered_expires 5 [mkCover 1 b 138; mkCover 2 b 138; mkCover 3 b 137] 2);
    [lia | | vm_compute; lia].
  intros e He. repeat (apply elem_of_cons in He as [->|He]; [simpl; lia|]).
  by apply elem_of_nil in He.
Defined.

Lemma predict_covered_keeps_entries_witness :
  let b := mkBox 10 10 20 40 in
  let l := [mkCover 1 b 139; mkCover 2 b 5; mkCover 3 b 7] in
  ∃ e, e ∈ l ∧ (mkCover 3 b 8 = e ∨ (mkCover 3 b 8 = aged 1 e ∧ cover_frames (mkCover 3 b 8) < 140)).
Proof.
  intros b l. destruct (predict_covered_keeps_entries l) as [_ Hall].
  apply Hall. right. left.
Defined.

(** ** [new_id_track] *)




(** ** New tracks, errors and order in [update] *)

Section UpdateFurther.
Context `{Assignment}.

Lemma initiate_track_accounts (st : Tracker) (d : Detection) :
  length (tracks (_initiate_track st d)) = S (length (tracks st))
  ∧ Z.of_nat (length (Covered_lists st))
    - Z.of_nat (length (Covered_lists (_initiate_track st d)))
    + (_next_id (_initiate_track st d) - _next_id st) = 1
  ∧ (length (Covered_lists (_initiate_track st d)) ≤ length (Covered_lists st))%nat
  ∧ _next_id st ≤ _next_id (_initiate_track st d)
  ∧ Covered_lists (_initiate_track st d) `sublist_of` Covered_lists st.
Proof.
  unfold _initiate_track, new_id_track.
  destruct (find_cover (tlwh d) 0 (Covered_lists st)) as [[i id]|] eqn:Hf; simpl.
  - apply find_cover_inv in Hf as (k & c & -> & Hk & _). simpl.
    rewrite length_app, length_delete by (by rewrite Hk).
    apply lookup_lt_Some in Hk as Hlt. simpl.
    repeat split; try lia. apply sublist_delete.
  - rewrite length_app. simpl. repeat split; try lia. done.
Qed.

Lemma initiate_tracks_ledger (detections : list Detection) (ks : list nat)
    (st st' : Tracker) :
  initiate_tracks detections ks st = Some st' →
  Z.of_nat (length (Covered_lists st)) - Z.of_nat (length (Covered_lists st'))
  + (_next_id st' - _next_id st) = Z.of_nat (length ks)
  ∧ (length (Covered_lists st') ≤ length (Covered_lists st))%nat
  ∧ Covered_lists st' `sublist_of` Covered_lists st.
Proof.
  revert st. induction ks as [|k ks IH]; intros st Hi; simpl in Hi.
  - injection Hi as <-. simpl. repeat split; try lia. done.
  - destruct (detections !! k) as [d|]; [|done]. simpl in Hi.
    destruct (IH _ Hi) as (Hsum & Hle & Hsub).
    destruct (initiate_track_accounts st d) as (_ & Hsum1 & Hle1 & _ & Hsub1).
    simpl. repeat split; try lia. by etrans.
Qed.

(** X6.  Every unmatched detection starts exactly one track, and every
    new track takes either one entry out of the ledger or one fresh id
    from the counter: over the loop, the entries taken and the ids minted
    add up to the number of unmatched detections.  The ledger only loses
    entries, in place, and the counter only grows. *)
Theorem initiate_tracks_accounts (detections : list Detection) (ks : list nat)
    (st st' : Tracker) :
  initiate_tracks detections ks st = Some st' →
  length (tracks st') = (length (tracks st) + length ks)%nat
  ∧ Z.of_nat (length (Covered_lists st)) - Z.of_nat (length (Covered_lists st'))
    + (_next_id st' - _next_id st) = Z.of_nat (length ks)
  ∧ (length (Covered_lists st') ≤ length (Covered_lists st))%nat
  ∧ _next_id st ≤ _next_id st'
  ∧ Covered_lists st' `sublist_of` Covered_lists st.
Proof.
  revert st. induction ks as [|k ks IH]; intros st Hi; simpl in Hi.
  - injection Hi as <-. simpl. repeat split; try lia. done.
  - destruct (detections !! k) as [d|]; [|done]. simpl in Hi.
    destruct (IH _ Hi) as (Hlen & Hsum & Hle & Hn & Hsub).
    destruct (initiate_track_accounts st d) as (Hlen1 & Hsum1 & Hle1 & Hn1 & Hsub1).
    simpl. repeat split; try lia. by etrans.
Qed.

Lemma apply_matches_is_Some (ds : list Detection) ms (ts : list Track) :
  is_Some (apply_matches ds ms ts)
  ↔ ∀ k j, (k, j) ∈ ms → (k < length ts)%nat ∧ (j < length ds)%nat.
Proof.
  revert ts. induction ms as [|[k j] ms IH]; intros ts; simpl.
  - split; [|done]. intros _ k j Hin. by apply elem_of_nil in Hin.
  - split.
    + intros Hs k' j' Hin.
      destruct (ts !! k) as [t|] eqn:Hk; [|by destruct Hs]. simpl in Hs.
      destruct (ds !! j) as [d|] eqn:Hj; [|by destruct Hs]. simpl in Hs.
      apply elem_of_cons in Hin as [[= -> ->]|Hin].
      * split; by eapply lookup_lt_Some.
      * pose proof (proj1 (IH _) Hs) as Hs'. rewrite length_insert in Hs'. by apply Hs'.
    + intros Hall. destruct (Hall k j) as [Hk Hj]; [left|].
      destruct (lookup_lt_is_Some_2 _ _ Hk) as [t ->].
      destruct (lookup_lt_is_Some_2 _ _ Hj) as [d ->]. simpl.
      apply (proj2 (IH _)). rewrite length_insert. intros k' j' Hin. apply Hall. by right.
Qed.

Lemma apply_misses_is_Some boxes (ks : list nat) (ts : list Track) (nid : Z) :
  is_Some (apply_misses boxes ks ts nid) ↔ ∀ k, k ∈ ks → (k < length ts)%nat.
Proof.
  revert ts nid. induction ks as [|k ks IH]; intros ts nid; simpl.
  - split; [|done]. intros _ k Hin. by apply elem_of_nil in Hin.
  - split.
    + intros Hs k' Hin.
      destruct (ts !! k) as [t|] eqn:Hk; [|by destruct Hs]. simpl in Hs.
      apply elem_of_cons in Hin as [->|Hin]; [by eapply lookup_lt_Some|].
      pose proof (proj1 (IH _ _) Hs) as Hs'. rewrite length_insert in Hs'. by apply Hs'.
    + intros Hall. destruct (lookup_lt_is_Some_2 ts k) as [t ->]; [apply Hall; left|].
      simpl. apply (proj2 (IH _ _)). rewrite length_insert. intros k' Hin. apply Hall. by right.
Qed.


Lemma initiate_tracks_is_Some (ds : list Detection) (ks : list nat) (st : Tracker) :
  is_Some (initiate_tracks ds ks st) ↔ ∀ j, j ∈ ks → (j < length ds)%nat.
Proof.
  revert st. induction ks as [|k ks IH]; intros st; simpl.
  - split; [|done]. intros _ k Hin. by apply elem_of_nil in Hin.
  - split.
    + intros Hs j Hin. destruct (ds !! k) as [d|] eqn:Hk; [|by destruct Hs]. simpl in Hs.
      apply elem_of_cons in Hin as [->|Hin]; [by eapply lookup_lt_Some|].
      by apply (proj1 (IH _) Hs).
    + intros Hall. destruct (lookup_lt_is_Some_2 ds k) as [d ->]; [apply Hall; left|].
      simpl. apply (proj2 (IH _)). intros j Hin. apply Hall. by right.
Qed.

Lemma update_in_range (st : Tracker) (detections : list Detection) r :
  _match st detections = Some r → in_range st detections r →
  is_Some (update st detections).
Proof.
  destruct r as [[m u] ud]. intros Hm (Hmr & Hur & Hdr). simpl in *.
  unfold update, update_tracks. rewrite Hm. simpl.
  destruct (proj2 (apply_matches_is_Some detections m (tracks st)) Hmr) as [ts1 H1].
  rewrite H1. simpl.
  destruct (proj2 (apply_misses_is_Some (to_tlwh <$> tracks st) u ts1 (_next_id st)))
    as [[ts2 nid] H2].
  { by rewrite (apply_matches_length _ _ _ _ H1). }
  rewrite H2. simpl.
  destruct (proj2 (initiate_tracks_is_Some detections ud
                     (set_next_id (set_tracks st ts2) nid)) Hdr) as [st1 H3].
  rewrite H3. done.
Qed.

(** X7.  [update] returns a tracker, rather than raising an
    [IndexError], if and only if [_match] returns and every index it
    returns is a position of the track list or of the detection list. *)
Theorem update_succeeds_iff (st : Tracker) (detections : list Detection) :
  is_Some (update st detections)
  ↔ ∃ r, _match st detections = Some r ∧ in_range st detections r.
Proof.
  split; [|intros (r & Hr & Hin); by eapply update_in_range].
  unfold update, update_tracks, in_range. intros Hs.
  destruct (_match st detections) as [[[m u] ud]|] eqn:Hm; [|by destruct Hs].
  simpl in Hs. exists (m, u, ud). split; [done|]. simpl.
  destruct (apply_matches detections m (tracks st)) as [ts1|] eqn:H1;
    [|by destruct Hs]. simpl in Hs.
  destruct (apply_misses _ u ts1 (_next_id st)) as [[ts2 nid]|] eqn:H2;
    [|by destruct Hs]. simpl in Hs.
  destruct (initiate_tracks detections ud _) as [st1|] eqn:H3; [|by destruct Hs].
  split; [|split].
  - apply apply_matches_is_Some. by rewrite H1.
  - rewrite <- (apply_matches_length _ _ _ _ H1).
    apply (apply_misses_is_Some (to_tlwh <$> tracks st) u ts1 (_next_id st)).
    by rewrite H2.
  - eapply initiate_tracks_is_Some. by rewrite H3.
Qed.





Lemma zip_own_id (fs : list Feature) (id : Z) :
  zip fs ((λ _, id) <$> fs) = (λ f, (f, id)) <$> fs.
Proof. induction fs as [|f fs IH]; [done|]. simpl. f_equal. exact IH. Qed.

(** X10.  The features and the targets handed to [partial_fit] are
    aligned.  The features are those of the Confirmed tracks, track after
    track in the order of the track list, and the target at each position
    is the id of the track the feature at that position comes from: paired
    position by position, the two lists are the list of every feature of
    every Confirmed track with the id of that track.  So the two lists
    have the same length, every target is the id of a Confirmed track and
    is among [active_targets], which are the ids of the Confirmed tracks in
    their order, and every feature of a Confirmed track is handed over. *)
Theorem refit_arguments_aligned (ts : list Track) :
  length (refit_arguments ts).1.1 = length (refit_arguments ts).1.2
  ∧ zip (refit_arguments ts).1.1 (refit_arguments ts).1.2
    = filter (λ t, is_confirmed t = true) ts
      ≫= (λ t, (λ f, (f, track_id t)) <$> features t)
  ∧ (refit_arguments ts).1.1 = filter (λ t, is_confirmed t = true) ts ≫= features
  ∧ (refit_arguments ts).2 = track_id <$> filter (λ t, is_confirmed t = true) ts
  ∧ (∀ i f id, (refit_arguments ts).1.1 !! i = Some f →
               (refit_arguments ts).1.2 !! i = Some id →
               ∃ t, t ∈ ts ∧ is_confirmed t = true ∧ f ∈ features t ∧ track_id t = id)
  ∧ (∀ id, id ∈ (refit_arguments ts).1.2 → id ∈ (refit_arguments ts).2)
  ∧ (∀ id, id ∈ (refit_arguments ts).2
           ↔ ∃ t, t ∈ ts ∧ is_confirmed t = true ∧ track_id t = id)
  ∧ (∀ t f, t ∈ ts → is_confirmed t = true → f ∈ features t →
            f ∈ (refit_arguments ts).1.1 ∧ track_id t ∈ (refit_arguments ts).1.2).
Proof.
  unfold refit_arguments. rewrite gather_spec. simpl. unfold active_targets.
  set (conf := filter (λ t, is_confirmed t = true) ts).
  assert (Hconf : ∀ t, t ∈ conf ↔ t ∈ ts ∧ is_confirmed t = true).
  { intros t. unfold conf. rewrite list_elem_of_filter. tauto. }
  assert (Hlen : ∀ l : list Track,
             length (l ≫= features)
             = length (l ≫= λ t, (λ _, track_id t) <$> features t)).
  { induction l as [|t l IH]; [done|].
    rewrite !bind_cons, !length_app, IH, length_fmap. done. }
  assert (Hzip : ∀ l : list Track,
             zip (l ≫= features) (l ≫= λ t, (λ _, track_id t) <$> features t)
             = l ≫= (λ t, (λ f, (f, track_id t)) <$> features t)).
  { induction l as [|t l IH]; [done|].
    rewrite !bind_cons, zip_with_app by (by rewrite length_fmap).
    by rewrite IH, zip_own_id. }
  split; [apply Hlen|]. split; [apply Hzip|]. split; [done|]. split; [done|].
  split; [|split; [|split]].
  - intros i f id Hf Hid.
    assert (Hp : zip (conf ≫= features)
                   (conf ≫= λ t, (λ _, track_id t) <$> features t) !! i = Some (f, id)).
    { rewrite lookup_zip_with, Hf. simpl. by rewrite Hid. }
    rewrite Hzip in Hp. apply list_elem_of_lookup_2 in Hp.
    apply list_elem_of_bind in Hp as (t & Hp & Ht).
    apply list_elem_of_fmap in Hp as (f' & [= -> ->] & Hf').
    apply Hconf in Ht as [Ht Hc]. by exists t.
  - intros id Hid. apply list_elem_of_bind in Hid as (t & Hid & Ht).
    apply list_elem_of_fmap in Hid as (f & -> & _).
    apply list_elem_of_fmap. by exists t.
  - intros id. rewrite list_elem_of_fmap. split.
    + intros (t & -> & Ht). apply Hconf in Ht as [Ht Hc]. by exists t.
    + intros (t & Ht & Hc & <-). exists t. split; [done|]. by apply Hconf.
  - intros t f Ht Hc Hf. split.
    + apply list_elem_of_bind. exists t. split; [done|]. by apply Hconf.
    + apply list_elem_of_bind. exists t. split; [|by apply Hconf].
      apply list_elem_of_fmap. by exists f.
Qed.

(** X11.  The loop of [update] over the unmatched tracks gives the same
    tracks and the same id counter in whatever order the set of unmatched
    tracks is listed. *)
Theorem apply_misses_any_order boxes (l ks : list nat) (ts : list Track) (nid : Z) :
  NoDup ks →
  (∀ k, k ∈ ks ↔ k ∈ l) →
  (∀ k, k ∈ l → is_Some (ts !! k)) →
  apply_misses boxes ks ts nid = apply_misses boxes (list_set l) ts nid.
Proof.
  intros Hnd Hsame Hvalid. apply apply_misses_Permutation; [done| |].
  - apply NoDup_Permutation; [done | apply NoDup_list_set |].
    intros k. unfold list_set. by rewrite elem_of_remove_dups.
  - intros k Hk. apply Hvalid. by apply Hsame.
Qed.

End UpdateFurther.

(** ** Every track and every detection is accounted for *)

Section Partition.
Context `{Assignment}.

Lemma confirmed_unconfirmed_split (ts : list Track) :
  confirmed_tracks ts ++ unconfirmed_tracks ts ≡ₚ seq 0 (length ts).
Proof.
  apply NoDup_Permutation.
  - apply NoDup_app. split; [apply NoDup_indices_from|].
    split; [|apply NoDup_indices_from].
    intros k Hc Hu. apply elem_of_confirmed_tracks in Hc as (t & Ht & Hc).
    apply elem_of_unconfirmed_tracks in Hu as (t' & Ht' & Hu). congruence.
  - apply NoDup_seq.
  - intros k. rewrite elem_of_app, indices_cover_all, elem_of_seq. lia.
Qed.

Lemma select_split (p : Track → bool) (ts : list Track) (ks : list nat) :
  (∀ k, k ∈ ks → is_Some (ts !! k)) →
  filter (λ k, p <$> ts !! k = Some true) ks
  ++ filter (λ k, (λ t, negb (p t)) <$> ts !! k = Some true) ks
  ≡ₚ ks.
Proof.
  induction ks as [|k ks IH]; intros Hks; [done|].
  destruct (Hks k) as [t Ht]; [left|].
  specialize (IH (λ k' Hk', Hks k' (list_elem_of_further _ _ _ Hk'))).
  destruct (p t) eqn:Hp.
  - rewrite (filter_cons_True (λ k, p <$> ts !! k = Some true))
      by (by rewrite Ht; simpl; rewrite Hp).
    rewrite (filter_cons_False (λ k, (λ t, negb (p t)) <$> ts !! k = Some true))
      by (rewrite Ht; simpl; rewrite Hp; done).
    simpl. by rewrite IH.
  - rewrite (filter_cons_False (λ k, p <$> ts !! k = Some true))
      by (rewrite Ht; simpl; rewrite Hp; done).
    rewrite (filter_cons_True (λ k, (λ t, negb (p t)) <$> ts !! k = Some true))
      by (by rewrite Ht; simpl; rewrite Hp).
    rewrite <- Permutation_middle. by rewrite IH.
Qed.

Lemma list_set_NoDup (l : list nat) : NoDup l → list_set l ≡ₚ l.
Proof.
  intros Hnd. apply NoDup_Permutation; [apply NoDup_list_set | done |].
  intros k. unfold list_set. apply elem_of_remove_dups.
Qed.

(** X12.  When each assignment routine returns every index it was given
    once, matched or unmatched, so does [_match]: it returns, every track
    position is in exactly one match or in the unmatched tracks, once, and
    every detection position is in exactly one match or in the unmatched
    detections, once.  Hence [update] corrects or misses every track
    exactly once, uses every detection to correct a track or to start one,
    and raises no [IndexError]. *)
Theorem match_accounts_for_all (st : Tracker) (detections : list Detection) :
  assignment_partitions →
  ∃ r,
    _match st detections = Some r
    ∧ r.1.1.*1 ++ r.1.2 ≡ₚ seq 0 (length (tracks st))
    ∧ r.1.1.*2 ++ r.2 ≡ₚ seq 0 (length detections)
    ∧ in_range st detections r
    ∧ is_Some (update st detections).
Proof.
  intros [Hcascade Hiou].
  destruct (matching_cascade (metric st) (max_age st) (tracks st) detections
              (confirmed_tracks (tracks st))) as [[ma ua] ud0] eqn:Hca.
  destruct (Hcascade _ _ _ _ _ _ _ _ Hca) as [Pa Pd].
  assert (Hvalid : ∀ k, k ∈ ua → is_Some (tracks st !! k)).
  { intros k Hk.
    assert (Hin : k ∈ confirmed_tracks (tracks st)).
    { rewrite <- Pa. apply elem_of_app. by right. }
    apply elem_of_confirmed_tracks in Hin as (t & -> & _). done. }
  set (recent := filter (λ k, (λ t, time_since_update t =? 1) <$> tracks st !! k = Some true) ua).
  set (older := filter (λ k, (λ t, negb (time_since_update t =? 1)) <$> tracks st !! k
                             = Some true) ua).
  assert (Hsplit : recent ++ older ≡ₚ ua)
    by apply (select_split (λ t, time_since_update t =? 1) _ _ Hvalid).
  assert (Hnd0 : NoDup ud0).
  { assert (Hnd : NoDup (ma.*2 ++ ud0)) by (rewrite Pd; apply NoDup_seq).
    by apply NoDup_app in Hnd as (_ & _ & Hnd). }
  destruct (min_cost_matching (max_iou_distance st) (tracks st) detections
              (unconfirmed_tracks (tracks st) ++ recent) ud0)
    as [[mb ub] ud1] eqn:Hmb.
  destruct (Hiou _ _ _ _ _ _ _ _ Hnd0 Hmb) as [Pb Pe].
  assert (Hm : _match st detections
               = Some (ma ++ mb, list_set (older ++ ub), ud1)).
  { unfold _match, iou_track_candidates. rewrite Hca. simpl.
    rewrite !(select_by_Some _ _ _ Hvalid). simpl. fold recent older.
    by rewrite Hmb. }
  assert (Hall : ma.*1 ++ mb.*1 ++ older ++ ub ≡ₚ seq 0 (length (tracks st))).
  { rewrite <- confirmed_unconfirmed_split, <- Pa, <- Hsplit.
    rewrite (Permutation_app_comm older ub), (app_assoc (mb.*1)), Pb.
    rewrite <- !app_assoc. apply Permutation_app_head.
    rewrite (Permutation_app_comm (unconfirmed_tracks (tracks st))).
    rewrite <- !app_assoc. done. }
  assert (Hset : list_set (older ++ ub) ≡ₚ older ++ ub).
  { apply list_set_NoDup.
    assert (Hnd : NoDup (ma.*1 ++ mb.*1 ++ older ++ ub)) by (rewrite Hall; apply NoDup_seq).
    apply NoDup_app in Hnd as (_ & _ & Hnd). by apply NoDup_app in Hnd as (_ & _ & Hnd). }
  assert (Ptracks : (ma ++ mb).*1 ++ list_set (older ++ ub) ≡ₚ seq 0 (length (tracks st))).
  { rewrite fmap_app, Hset, <- app_assoc. exact Hall. }
  assert (Pdets : (ma ++ mb).*2 ++ ud1 ≡ₚ seq 0 (length detections)).
  { rewrite fmap_app, <- app_assoc, Pe. exact Pd. }
  assert (Hrange : in_range st detections (ma ++ mb, list_set (older ++ ub), ud1)).
  { unfold in_range. simpl. split; [|split].
    - intros k j Hkj. split.
      + assert (Hk : k ∈ seq 0 (length (tracks st))).
        { rewrite <- Ptracks. apply elem_of_app. left.
          apply list_elem_of_fmap. by exists (k, j). }
        apply elem_of_seq in Hk. lia.
      + assert (Hj : j ∈ seq 0 (length detections)).
        { rewrite <- Pdets. apply elem_of_app. left.
          apply list_elem_of_fmap. by exists (k, j). }
        apply elem_of_seq in Hj. lia.
    - intros k Hk.
      assert (Hk' : k ∈ seq 0 (length (tracks st))).
      { rewrite <- Ptracks. apply elem_of_app. by right. }
      apply elem_of_seq in Hk'. lia.
    - intros j Hj.
      assert (Hj' : j ∈ seq 0 (length detections)).
      { rewrite <- Pdets. apply elem_of_app. by right. }
      apply elem_of_seq in Hj'. lia. }
  exists (ma ++ mb, list_set (older ++ ub), ud1).
  split; [done|]. split; [done|]. split; [done|]. split; [done|].
  by apply (update_in_range _ _ (ma ++ mb, list_set (older ++ ub), ud1)).
Qed.

End Partition.

Lemma first_on_elem (bound : Q) (b : Box) (ds : list Detection) (js : list nat) (j : nat) :
  first_on bound b ds js = Some j → j ∈ js.
Proof.
  induction js as [|x js IH]; [done|]. simpl.
  destruct (ds !! x) as [d|].
  - destruct (iou_at_least (1 - bound) b (tlwh d)).
    + intros [= ->]. left.
    + intros Hf. right. by apply IH.
  - intros Hf. right. by apply IH.
Qed.

Lemma filter_ne_Permutation (l : list nat) (j : nat) :
  NoDup l → j ∈ l → l ≡ₚ j :: filter (λ x, x ≠ j) l.
Proof.
  intros Hnd Hj. apply NoDup_Permutation; [done| |].
  - apply NoDup_cons. split; [|by apply NoDup_filter].
    rewrite list_elem_of_filter. by intros [Hne _].
  - intros x. rewrite elem_of_cons, list_elem_of_filter.
    destruct (decide (x = j)) as [->|Hne]; [tauto|]. tauto.
Qed.

Lemma pair_on_partition (bound : Q) (ts : list Track) (ds : list Detection)
    (ks js : list nat) m u d :
  NoDup js → pair_on bound ts ds ks js = (m, u, d) →
  m.*1 ++ u ≡ₚ ks ∧ m.*2 ++ d ≡ₚ js.
Proof.
  revert js m u d. induction ks as [|k ks IH]; intros js m u d Hnd Hp;
    cbn [pair_on] in Hp.
  - by injection Hp as <- <- <-.
  - destruct (ts !! k ≫= λ t, first_on bound (to_tlwh t) ds js) as [j|] eqn:Hj.
    + assert (Hin : j ∈ js).
      { destruct (ts !! k) as [t|]; [|done]. simpl in Hj. by eapply first_on_elem. }
      destruct (pair_on bound ts ds ks (filter (λ x, x ≠ j) js)) as [[m' u'] d'] eqn:Hrec.
      injection Hp as <- <- <-.
      destruct (IH _ _ _ _ (NoDup_filter _ _ Hnd) Hrec) as [P1 P2]. simpl. split.
      * by rewrite P1.
      * rewrite P2. symmetry. by apply filter_ne_Permutation.
    + destruct (pair_on bound ts ds ks js) as [[m' u'] d'] eqn:Hrec.
      injection Hp as <- <- <-.
      destruct (IH _ _ _ _ Hnd Hrec) as [P1 P2]. split; [|done].
      rewrite <- Permutation_middle. by rewrite P1.
Qed.

Lemma by_overlap_partitions : assignment_partitions.
Proof.
  split.
  - intros m a ts ds track_indices ma ua ud Hc. simpl in Hc.
    by injection Hc as <- <- <-.
  - intros q ts ds track_indices detection_indices mb ub ud Hnd Hp. simpl in Hp.
    by eapply pair_on_partition.
Qed.

(** ** The id counter over one [update] *)

Section Balance.
Context `{Assignment}.

(** X13.  Over one [update] the id counter goes down by one for every
    unmatched track dropped at once and up by one for every unmatched
    detection that does not take an entry out of the ledger; nothing else
    moves it. *)
Theorem update_counter_balance (st st' : Tracker) (detections : list Detection) :
  update st detections = Some st' →
  ∃ r ts st1,
    _match st detections = Some r
    ∧ apply_matches detections r.1.1 (tracks st) = Some ts
    ∧ update_tracks st detections = Some st1
    ∧ (length (Covered_lists st1) ≤ length (Covered_lists st))%nat
    ∧ _next_id st'
      = _next_id st
        - Z.of_nat (drops (to_tlwh <$> tracks st) ts r.1.2)
        + (Z.of_nat (length r.2)
           - (Z.of_nat (length (Covered_lists st)) - Z.of_nat (length (Covered_lists st1)))).
Proof.
  intros Hu. destruct (update_inv _ _ _ Hu) as (st1 & Hu1 & ->).
  destruct (update_tracks_inv _ _ _ Hu1)
    as (m & u & ud & ts1 & ts2 & nid & Hm & H1 & H2 & H3).
  exists (m, u, ud), ts1, st1. simpl.
  split; [done|]. split; [done|]. split; [done|].
  destruct (initiate_tracks_ledger _ _ _ _ H3) as (Hsum & Hle & _).
  simpl in Hsum, Hle. split; [done|].
  rewrite next_id_refit_retire.
  rewrite apply_misses_spec in H2;
    [| by eapply match_unmatched_NoDup | by eapply apply_misses_in_range].
  injection H2 as _ <-. lia.
Qed.

End Balance.

(** ** Instances of the further properties *)

Lemma initiate_tracks_accounts_witness :
  let st := tracker_with [] 5 [mkCover 2 (mkBox 500 500 20 40) 3; mkCover 3 (mkBox 13 14 20 40) 8] in
  let ds := [mkDetection _ (mkBox 10 10 20 40) 77; mkDetection _ (mkBox 900 900 20 40) 78] in
  ∃ st',
    initiate_tracks ds [0; 1]%nat st = Some st'
    ∧ length (tracks st') = 2%nat
    ∧ Z.of_nat (length (Covered_lists st)) - Z.of_nat (length (Covered_lists st'))
      + (_next_id st' - _next_id st) = 2
    ∧ Covered_lists st' `sublist_of` Covered_lists st.
Proof.
  intros st ds.
  destruct (initiate_tracks ds [0; 1]%nat st) as [st'|] eqn:Hi; [|discriminate Hi].
  destruct (initiate_tracks_accounts ds [0; 1]%nat st st' Hi) as (Hlen & Hsum & _ & _ & Hsub).
  exists st'. split; [done|]. split; [exact Hlen|]. split; [exact Hsum | exact Hsub].
Defined.

Lemma update_succeeds_iff_witness :
  let st := tracker_with
              [track_at 1 Confirmed 1 (mkBox 0 0 10 10);
               track_at 2 Tentative 1 (mkBox 300 300 10 10)] 3 [] in
  let ds := [mkDetection _ (mkBox 1 0 10 10) 55; mkDetection _ (mkBox 600 600 10 10) 66] in
  ∃ r, _match st ds = Some r ∧ in_range st ds r.
Proof.
  intros st ds. apply (proj1 (update_succeeds_iff st ds)).
  destruct (update st ds) as [st'|] eqn:Hu; [done | discriminate Hu].
Defined.



Lemma refit_arguments_aligned_witness :
  let f (t : Track) (fs : list Z) := set_features t fs in
  let ts := [f (track_at 3 Confirmed 0 (mkBox 600 600 10 10)) [55; 56];
             f (track_at 2 Tentative 0 (mkBox 300 300 10 10)) [66];
             f (track_at 1 Confirmed 0 (mkBox 0 0 10 10)) [77]] in
  zip (refit_arguments ts).1.1 (refit_arguments ts).1.2 = [(55, 3); (56, 3); (77, 1)]
  ∧ (refit_arguments ts).1.1 = [55; 56; 77]
  ∧ (refit_arguments ts).2 = [3; 1]
  ∧ 77 ∈ (refit_arguments ts).1.1
  ∧ 1 ∈ (refit_arguments ts).1.2
  ∧ 1 ∈ (refit_arguments ts).2.
Proof.
  intros f ts.
  destruct (refit_arguments_aligned ts) as (_ & Hzip & Hfs & Hact & _ & Hsub & _ & Hall).
  destruct (Hall (f (track_at 1 Confirmed 0 (mkBox 0 0 10 10)) [77]) 77) as [Hf Hid].
  - right. right. left.
  - reflexivity.
  - left.
  - split; [exact Hzip|]. split; [exact Hfs|]. split; [exact Hact|].
    split; [exact Hf|]. split; [exact Hid | exact (Hsub _ Hid)].
Defined.

Lemma apply_misses_any_order_witness :
  let a := mkBox 0 0 10 10 in
  let b := mkBox 100 100 10 10 in
  let ts := [track_at 1 Tentative 1 a; track_at 2 Confirmed 1 b] in
  apply_misses [a; b] [0; 1]%nat ts 3 = apply_misses [a; b] (list_set [1; 0; 1]%nat) ts 3.
Proof.
  intros a b ts. apply (apply_misses_any_order [a; b] [1; 0; 1]%nat [0; 1]%nat ts 3).
  - apply (bool_decide_unpack _). reflexivity.
  - intros k. rewrite !elem_of_cons. pose proof (elem_of_nil k). tauto.
  - intros k Hk. apply lookup_lt_is_Some.
    repeat (apply elem_of_cons in Hk as [->|Hk]; [simpl; lia|]).
    by apply elem_of_nil in Hk.
Defined.

Lemma match_accounts_for_all_witness :
  let st := tracker_with
              [track_at 1 Confirmed 1 (mkBox 0 0 10 10);
               track_at 2 Tentative 1 (mkBox 300 300 10 10);
               track_at 3 Confirmed 3 (mkBox 600 600 10 10)] 4 [] in
  let ds := [mkDetection _ (mkBox 301 300 10 10) 55; mkDetection _ (mkBox 900 900 10 10) 66] in
  ∃ r,
    _match st ds = Some r
    ∧ r.1.1.*1 ++ r.1.2 ≡ₚ [0; 1; 2]%nat
    ∧ r.1.1.*2 ++ r.2 ≡ₚ [0; 1]%nat
    ∧ is_Some (update st ds).
Proof.
  intros st ds.
  destruct (match_accounts_for_all st ds by_overlap_partitions)
    as (r & Hm & Pt & Pd & _ & Hs).
  by exists r.
Defined.

Lemma update_counter_balance_witness :
  let st := tracker_with
              [track_at 1 Tentative 1 (mkBox 0 0 10 10);
               track_at 2 Tentative 1 (mkBox 300 300 10 10)] 3
              [mkCover 7 (mkBox 800 800 10 10) 12] in
  let ds := [mkDetection _ (mkBox 301 300 10 10) 55;
             mkDetection _ (mkBox 803 804 10 10) 66;
             mkDetection _ (mkBox 500 500 10 10) 67] in
  ∃ st' r ts st1,
    update st ds = Some st'
    ∧ _match st ds = Some r
    ∧ apply_matches ds r.1.1 (tracks st) = Some ts
    ∧ update_tracks st ds = Some st1
    ∧ _next_id st'
      = 3 - Z.of_nat (drops (to_tlwh <$> tracks st) ts r.1.2)
        + (Z.of_nat (length r.2) - (1 - Z.of_nat (length (Covered_lists st1)))).
Proof.
  intros st ds.
  destruct (update st ds) as [st'|] eqn:Hu; [|discriminate Hu].
  destruct (update_counter_balance st st' ds Hu) as (r & ts & st1 & Hm & Ht & Hu1 & _ & Hn).
  by exists st', r, ts, st1.
Defined.
